(** * Collapsing orthologous nodes: equivalence classes and canonical mapping

    A shallow embedding of the notebook
    [needs_updating/Collapsing Orthologous Nodes.ipynb]: the construction of
    the equivalence classes of orthologous gene identifiers, the canonical
    mapping towards the MGI namespace, and its application to a corpus
    graph. *)

From stdpp Require Import gmap strings list fin_maps fin_sets.

#[local] Set Warnings "-clear-no-such-hyp".

Open Scope string_scope.
Open Scope list_scope.
Open Scope nat_scope.

(** ** Data model *)

(** A node of a BEL graph: the Python tuple [(function, namespace, name)]. *)
Definition GeneIdentifier : Type := string * string * string.

Definition gi_function (n : GeneIdentifier) : string := n.1.1.
Definition gi_namespace (n : GeneIdentifier) : string := n.1.2.
Definition gi_name (n : GeneIdentifier) : string := n.2.

(** The attribute dictionary of a node. *)
Abbreviation Attrs := (gmap string string).

(** [d.update(other)]: the keys of [other] win on collision. *)
Definition update (d other : Attrs) : Attrs := other ∪ d.

(** A graph as it is loaded: the nodes that were added with their data, and
    the directed edges. As in networkx, the end points of an edge are nodes
    of the graph even when they were never added on their own. *)
Record Graph : Type := mkGraph {
  g_node : list (GeneIdentifier * Attrs);
  g_edge : list (GeneIdentifier * GeneIdentifier)
}.

Definition endpoints (es : list (GeneIdentifier * GeneIdentifier))
  : list GeneIdentifier :=
  es ≫= λ e, [e.1; e.2].

(** [for n in G]: every node once. *)
Definition nodes (G : Graph) : list GeneIdentifier :=
  remove_dups ((g_node G).*1 ++ endpoints (g_edge G)).

(** [G[v]]: the neighbours of [v]. *)
Definition neighbors (G : Graph) (v : GeneIdentifier) : list GeneIdentifier :=
  (filter (λ e, e.1 = v) (g_edge G)).*2.

(** [G.node[n]]: the data of node [n], [None] for the [KeyError] raised
    when [n] is not a node. A node that only came in as the end point of an
    edge has an empty dictionary; adding a node again updates its data. *)
Definition add_node (store : gmap GeneIdentifier Attrs)
    (n : GeneIdentifier) (attr_dict : Attrs) : gmap GeneIdentifier Attrs :=
  <[n := update (default ∅ (store !! n)) attr_dict]> store.

Definition node_store (G : Graph) : gmap GeneIdentifier Attrs :=
  foldl (λ store nd, add_node store nd.1 nd.2)
        (gset_to_gmap ∅ (list_to_set (endpoints (g_edge G))))
        (g_node G).

Definition node_data (G : Graph) (n : GeneIdentifier) : option Attrs :=
  node_store G !! n.

(** ** Cell 11: the three tables *)

Record Classes : Type := mkClasses {
  index2component : gmap nat (list GeneIdentifier);
  member2index : gmap GeneIdentifier nat;
  index2mgi : gmap nat GeneIdentifier
}.

Definition no_classes : Classes := mkClasses ∅ ∅ ∅.

(** The body of the inner loop, for one member of component [i]. *)
Definition scan_member (i : nat) (st : Classes) (m : GeneIdentifier)
  : Classes :=
  let '(function, namespace, name) := m in
  let st' := mkClasses (index2component st)
                       (<[(function, namespace, name) := i]> (member2index st))
                       (index2mgi st) in
  if decide ("MGI" = namespace)
  then mkClasses (index2component st') (member2index st')
                 (<[i := (function, namespace, name)]> (index2mgi st'))
  else st'.

(** The body of the outer loop, for the pair [(i, component)]. *)
Definition scan_component (st : Classes) (ic : nat * list GeneIdentifier)
  : Classes :=
  let '(i, component) := ic in
  foldl (scan_member i)
        (mkClasses (<[i := component]> (index2component st))
                   (member2index st) (index2mgi st))
        component.

(** Python's [enumerate]. *)
Definition enumerate {A} (l : list A) : list (nat * A) := imap pair l.

Definition build_classes (components : list (list GeneIdentifier)) : Classes :=
  foldl scan_component no_classes (enumerate components).

(** ** Cell 12: the mapping *)

(** The body of the loop; the two [continue] leave the mapping as it is. *)
Definition map_node (st : Classes)
    (mapping : gmap GeneIdentifier GeneIdentifier) (n : GeneIdentifier)
  : gmap GeneIdentifier GeneIdentifier :=
  match member2index st !! n with
  | None => mapping
  | Some index =>
      match index2mgi st !! index with
      | None => mapping
      | Some mgi => <[n := mgi]> mapping
      end
  end.

Definition build_mapping (st : Classes) (ns : list GeneIdentifier)
  : gmap GeneIdentifier GeneIdentifier :=
  foldl (map_node st) ∅ ns.

(** ** Cell 10 and the connected components *)

(** [orthology.to_undirected()], a networkx method: the same nodes with
    their data, and the direction of the edges discarded, so that every edge
    is found from both of its end points. *)
Definition to_undirected (G : Graph) : Graph :=
  mkGraph (g_node G) (g_edge G ++ ((λ e, (e.2, e.1)) <$> g_edge G)).

(** Modelled from the spec: [nx.connected_components], a networkx function
    that is not part of the notebook. The spec asks for the connected
    components of the node and edge set, each a set of identifiers, numbered
    in the order of enumeration. They are computed as networkx does, by a
    breadth-first search from every node that no earlier component holds;
    a component lists its members in the order of the search. *)
Definition bfs_visit (G : Graph)
    (acc : list GeneIdentifier * list GeneIdentifier) (v : GeneIdentifier)
  : list GeneIdentifier * list GeneIdentifier :=
  if decide (v ∈ acc.1) then acc
  else (acc.1 ++ [v], acc.2 ++ neighbors G v).

(** Modelled from the spec: the levels of the search of
    [nx.connected_components]. A level either adds a node to [seen] or
    leaves no next level, so one round more than there are nodes is enough
    ([bfs_levels_spec]). *)
Fixpoint bfs_levels (fuel : nat) (G : Graph)
    (seen nextlevel : list GeneIdentifier) : list GeneIdentifier :=
  match nextlevel, fuel with
  | [], _ => seen
  | _ :: _, 0 => seen
  | _ :: _, S fuel' =>
      let acc := foldl (bfs_visit G) (seen, []) nextlevel in
      bfs_levels fuel' G acc.1 acc.2
  end.

(** Modelled from the spec: the component of [source] in
    [nx.connected_components]. *)
Definition plain_bfs (G : Graph) (source : GeneIdentifier)
  : list GeneIdentifier :=
  bfs_levels (S (length (nodes G))) G [] [source].

(** Modelled from the spec: the loop of [nx.connected_components] over the
    nodes, a new component for every node that is not yet seen. *)
Definition component_step (G : Graph)
    (acc : list GeneIdentifier * list (list GeneIdentifier))
    (v : GeneIdentifier)
  : list GeneIdentifier * list (list GeneIdentifier) :=
  if decide (v ∈ acc.1) then acc
  else let c := plain_bfs G v in (acc.1 ++ c, acc.2 ++ [c]).

(** Modelled from the spec: [nx.connected_components], the components in
    the order of enumeration. *)
Definition connected_components (G : Graph) : list (list GeneIdentifier) :=
  (foldl (component_step G) ([], []) (nodes G)).2.

(** ** The notebook up to the mapping *)

Definition orthology_classes (orthology : Graph) : Classes :=
  build_classes (connected_components (to_undirected orthology)).

Definition canonical_mapping (orthology : Graph)
  : gmap GeneIdentifier GeneIdentifier :=
  build_mapping (orthology_classes orthology) (nodes (to_undirected orthology)).

(** ** Cells 17 and 18: application to a corpus *)

(** The corpus graph [g]: the dictionary [g.node] of the node data and the
    set of directed edges. *)
Record Corpus : Type := mkCorpus {
  c_node : gmap GeneIdentifier Attrs;
  c_edge : gset (GeneIdentifier * GeneIdentifier)
}.

Definition mapped_types : list string := ["Gene"; "RNA"; "Protein"].

(** Cell 17, the body of the loop for the pair [(name, data)]; [data] is the
    dictionary [g.node[name]] itself. [None] stands for a [KeyError]. *)
Definition map_node_data_step (orthology_undirected : Graph)
    (mapping : gmap GeneIdentifier GeneIdentifier)
    (acc : option Corpus) (nd : GeneIdentifier * Attrs) : option Corpus :=
  g ← acc;
  ty ← nd.2 !! "type";
  if decide (ty ∈ mapped_types ∧ is_Some (mapping !! nd.1))
  then
    target ← mapping !! nd.1;
    other ← node_data orthology_undirected target;
    Some (mkCorpus (<[nd.1 := update nd.2 other]> (c_node g)) (c_edge g))
  else Some g.

Definition map_node_data (orthology_undirected : Graph)
    (mapping : gmap GeneIdentifier GeneIdentifier) (g : Corpus)
  : option Corpus :=
  foldl (map_node_data_step orthology_undirected mapping) (Some g)
        (map_to_list (c_node g)).

(** Cell 18, the function handed to [nx.relabel_nodes]:
    [lambda n: mapping[n] if n in mapping else n]. *)
Definition relabel (mapping : gmap GeneIdentifier GeneIdentifier)
    (n : GeneIdentifier) : GeneIdentifier :=
  match mapping !! n with
  | Some mgi => mgi
  | None => n
  end.

(** Modelled from the spec: [nx.relabel_nodes], a networkx function that is
    not part of the notebook. Following the spec, the final node set is
    built first: every node is added under its new name, and the data of
    nodes that meet under one name are merged as [add_node] does (a
    dictionary update, in the order of the nodes); every edge is re-pointed
    to the new names of its end points. *)
Definition relabel_store (f : GeneIdentifier → GeneIdentifier)
    (l : list (GeneIdentifier * Attrs)) : gmap GeneIdentifier Attrs :=
  foldl (λ store nd, add_node store (f nd.1) nd.2) ∅ l.

(** Modelled from the spec: an edge of [nx.relabel_nodes], re-pointed. *)
Definition relabel_edge (f : GeneIdentifier → GeneIdentifier)
    (e : GeneIdentifier * GeneIdentifier) : GeneIdentifier * GeneIdentifier :=
  (f e.1, f e.2).

(** Modelled from the spec: [nx.relabel_nodes] on a corpus, the merged
    node data and the re-pointed edges. *)
Definition relabel_nodes (f : GeneIdentifier → GeneIdentifier) (g : Corpus)
  : Corpus :=
  mkCorpus (relabel_store f (map_to_list (c_node g)))
           (set_map (relabel_edge f) (c_edge g)).

(** The two cells in a row, on the mapping of the orthology graph. *)
Definition apply_mapping (orthology : Graph) (g : Corpus) : option Corpus :=
  let mapping := canonical_mapping orthology in
  g' ← map_node_data (to_undirected orthology) mapping g;
  Some (relabel_nodes (relabel mapping) g').

(** The edges that touch a node. *)
Definition incident (g : Corpus) (n : GeneIdentifier)
  : gset (GeneIdentifier * GeneIdentifier) :=
  filter (λ e, e.1 = n ∨ e.2 = n) (c_edge g).

(** ** Cells 15 and 19: the frequency of the namespaces *)

(** [Counter(node[1] for node in g.nodes_iter()
             if g.node[node]['type'] == 'Gene')], one node at a time. A
    [Counter] reads a missing key as 0; [None] stands for the [KeyError] of
    a node without "type". *)
Definition count_gene_namespace (acc : option (gmap string nat))
    (nd : GeneIdentifier * Attrs) : option (gmap string nat) :=
  counter ← acc;
  ty ← nd.2 !! "type";
  if decide (ty = "Gene")
  then Some (<[gi_namespace nd.1 :=
                 S (default 0 (counter !! gi_namespace nd.1))]> counter)
  else Some counter.

Definition namespace_counter (g : Corpus) : option (gmap string nat) :=
  foldl count_gene_namespace (Some ∅) (map_to_list (c_node g)).

(** The nodes of type Gene in a namespace. *)
Definition genes_of (ns : string) (g : Corpus) : gmap GeneIdentifier Attrs :=
  filter (λ nd, nd.2 !! "type" = Some "Gene" ∧ gi_namespace nd.1 = ns)
         (c_node g).

(** ** Vocabulary of the properties *)

(** The reference member of a component that the scan meets last. *)
Definition last_mgi (component : list GeneIdentifier) : option GeneIdentifier :=
  last (filter (λ m, "MGI" = gi_namespace m) component).

(** No identifier is a member of two components. *)
Definition disjoint_components (components : list (list GeneIdentifier)) : Prop :=
  ∀ i j ci cj m,
    components !! i = Some ci → components !! j = Some cj →
    m ∈ ci → m ∈ cj → i = j.

(** Connectivity in a graph: a path along the edges. *)
Definition adjacent (G : Graph) (u w : GeneIdentifier) : Prop :=
  w ∈ neighbors G u.

Definition connected (G : Graph) : relation GeneIdentifier :=
  rtc (adjacent G).

Definition undirected (G : Graph) : Prop :=
  ∀ u w, adjacent G u w → adjacent G w u.

(** A set of nodes that no edge leaves. *)
Definition closed (G : Graph) (c : list GeneIdentifier) : Prop :=
  ∀ u w, u ∈ c → adjacent G u w → w ∈ c.

(** One connected component of [G]. *)
Definition is_component (G : Graph) (c : list GeneIdentifier) : Prop :=
  NoDup c ∧ c ≠ [] ∧ (∀ x, x ∈ c → x ∈ nodes G) ∧ closed G c ∧
  (∀ x y, x ∈ c → y ∈ c → connected G x y).

(** What cell 17 leaves in [g.node[name]], from the data found there. *)
Definition mapped_data (orthology_undirected : Graph)
    (mapping : gmap GeneIdentifier GeneIdentifier)
    (name : GeneIdentifier) (data : Attrs) : option Attrs :=
  ty ← data !! "type";
  if decide (ty ∈ mapped_types ∧ is_Some (mapping !! name))
  then
    target ← mapping !! name;
    other ← node_data orthology_undirected target;
    Some (update data other)
  else Some data.

(** The end points of the edges of a corpus are nodes of the corpus. *)
Definition corpus_wf (g : Corpus) : Prop :=
  ∀ e, e ∈ c_edge g → is_Some (c_node g !! e.1) ∧ is_Some (c_node g !! e.2).

(** ** The example of the spec *)

Definition TP53 : GeneIdentifier := ("Gene", "HGNC", "TP53").
Definition Trp53 : GeneIdentifier := ("Gene", "MGI", "Trp53").
Definition Tp53 : GeneIdentifier := ("Gene", "RGD", "Tp53").

Definition tp53_orthology : Graph :=
  mkGraph [] [(TP53, Trp53); (Trp53, Tp53)].

(** One class with two members of the reference namespace. *)
Definition Trp53_ps : GeneIdentifier := ("Gene", "MGI", "Trp53-ps").

Definition two_mgi_orthology : Graph :=
  mkGraph [] [(TP53, Trp53); (TP53, Trp53_ps)].

(** One class without a member of the reference namespace. *)
Definition FOO : GeneIdentifier := ("Gene", "HGNC", "FOO").
Definition Foo : GeneIdentifier := ("Gene", "RGD", "Foo").

Definition foo_orthology : Graph := mkGraph [] [(FOO, Foo)].

(** The example with the data of the mouse gene, and a corpus with the
    human gene of the relabelling test and a node that has no orthologue. *)
Definition tp53_orthology_data : Graph :=
  mkGraph
    [(Trp53, {["type" := "Gene"; "namespace" := "MGI"; "name" := "Trp53"]})]
    [(TP53, Trp53); (Trp53, Tp53)].

Definition water : GeneIdentifier := ("Abundance", "CHEBI", "water").

Definition tp53_corpus : Corpus :=
  mkCorpus {[TP53 := {["type" := "Gene"]};
             water := {["type" := "Abundance"]}]}
           {[(water, TP53)]}.

Definition tp53_corpus_relabeled : Corpus :=
  mkCorpus {[Trp53 := {["type" := "Gene"; "namespace" := "MGI";
                        "name" := "Trp53"]};
             water := {["type" := "Abundance"]}]}
           {[(water, Trp53)]}.

(** The corpus after cell 17 and before cell 18. *)
Definition tp53_corpus_updated : Corpus :=
  mkCorpus {[TP53 := {["type" := "Gene"; "namespace" := "MGI";
                       "name" := "Trp53"]};
             water := {["type" := "Abundance"]}]}
           {[(water, TP53)]}.

(** An orthology between two microRNA, a function that cell 17 leaves out. *)
Definition MIR21 : GeneIdentifier := ("miRNA", "HGNC", "MIR21").
Definition Mir21 : GeneIdentifier := ("miRNA", "MGI", "Mir21").

Definition mir21_orthology : Graph := mkGraph [] [(MIR21, Mir21)].

Definition mir21_corpus : Corpus :=
  mkCorpus {[MIR21 := {["type" := "miRNA"]}]} ∅.

Definition mir21_corpus_relabeled : Corpus :=
  mkCorpus {[Mir21 := {["type" := "miRNA"]}]} ∅.

(** A corpus with the human and the rat gene, which meet under Trp53. *)
Definition tp53_collision_corpus : Corpus :=
  mkCorpus {[TP53 := {["type" := "Gene"; "species" := "human"]};
             Tp53 := {["type" := "Gene"; "species" := "rat"]};
             water := {["type" := "Abundance"]}]}
           {[(water, TP53); (Tp53, water)]}.

(** Two components that overlap, as no graph gives them. *)
Definition overlapping_components : list (list GeneIdentifier) :=
  [[TP53; Trp53]; [Trp53; Tp53]].

(** The component of [two_mgi_orthology] with its members in another
    order, as the iteration over a Python set may give them. *)
Definition two_mgi_other_scan : list (list GeneIdentifier) :=
  [[Trp53_ps; TP53; Trp53]].

(** * Properties *)

(** ** What the scan of cell 11 leaves in the tables *)

Lemma scan_member_eq i st m :
  scan_member i st m =
  mkClasses (index2component st) (<[m := i]> (member2index st))
            (if decide ("MGI" = gi_namespace m)
             then <[i := m]> (index2mgi st) else index2mgi st).
Proof.
  destruct m as [[function namespace] name]. unfold scan_member, gi_namespace.
  simpl. by case_decide.
Qed.

Lemma last_mgi_snoc component m :
  last_mgi (component ++ [m]) =
  if decide ("MGI" = gi_namespace m) then Some m else last_mgi component.
Proof.
  unfold last_mgi. rewrite filter_app, filter_cons, filter_nil.
  case_decide.
  - by rewrite last_snoc.
  - by rewrite app_nil_r.
Qed.

Lemma last_mgi_Some component r :
  last_mgi component = Some r → r ∈ component ∧ gi_namespace r = "MGI".
Proof.
  unfold last_mgi. intros Hl.
  assert (r ∈ filter (λ m, "MGI" = gi_namespace m) component) as Hin.
  { apply last_Some in Hl as [l' ->]. apply elem_of_app. right.
    by apply list_elem_of_singleton. }
  apply list_elem_of_filter in Hin as [? ?]. done.
Qed.

Lemma last_mgi_None component :
  last_mgi component = None ↔ ∀ m, m ∈ component → gi_namespace m ≠ "MGI".
Proof.
  unfold last_mgi. rewrite last_None. split.
  - intros Hnil m Hm Hns.
    assert (m ∈ filter (λ m, "MGI" = gi_namespace m) component) as Hin
      by (apply list_elem_of_filter; done).
    rewrite Hnil in Hin. by apply elem_of_nil in Hin.
  - intros Hno. apply elem_of_nil_inv. intros m Hin.
    apply list_elem_of_filter in Hin as [? ?]. by eapply Hno.
Qed.

Lemma scan_members_spec i component st :
  index2component (foldl (scan_member i) st component) = index2component st ∧
  (∀ m, member2index (foldl (scan_member i) st component) !! m =
        if decide (m ∈ component) then Some i else member2index st !! m) ∧
  (∀ j, index2mgi (foldl (scan_member i) st component) !! j =
        if decide (j = i)
        then match last_mgi component with
             | Some r => Some r
             | None => index2mgi st !! i
             end
        else index2mgi st !! j).
Proof.
  induction component as [|m component IH] using rev_ind; simpl.
  - split_and!; [done|done|].
    intros j. case_decide; by subst.
  - rewrite foldl_app. simpl. rewrite scan_member_eq. simpl.
    destruct IH as (IH1 & IH2 & IH3). split_and!; [done| |].
    + intros m'. destruct (decide (m = m')) as [->|Hne].
      * rewrite lookup_insert_eq. rewrite decide_True; [done|].
        apply elem_of_app. right. by apply list_elem_of_singleton.
      * rewrite lookup_insert_ne by done. rewrite IH2.
        destruct (decide (m' ∈ component)) as [Hin|Hin],
                 (decide (m' ∈ component ++ [m])) as [Hin'|Hin']; try done.
        -- destruct Hin'. apply elem_of_app. by left.
        -- apply elem_of_app in Hin' as [?|?%list_elem_of_singleton]; done.
    + intros j. rewrite last_mgi_snoc. destruct (decide ("MGI" = gi_namespace m)).
      * destruct (decide (j = i)) as [->|Hne].
        -- by rewrite lookup_insert_eq.
        -- rewrite lookup_insert_ne by done. rewrite IH3. by case_decide.
      * apply IH3.
Qed.

Lemma build_classes_snoc components component :
  build_classes (components ++ [component]) =
  scan_component (build_classes components) (length components, component).
Proof.
  unfold build_classes, enumerate. rewrite imap_app, foldl_app. simpl.
  by rewrite Nat.add_0_r.
Qed.

Lemma index2component_spec components i :
  index2component (build_classes components) !! i = components !! i.
Proof.
  induction components as [|c cs IH] using rev_ind; [done|].
  rewrite build_classes_snoc. unfold scan_component.
  destruct (scan_members_spec (length cs) c
    (mkClasses (<[length cs:=c]> (index2component (build_classes cs)))
               (member2index (build_classes cs)) (index2mgi (build_classes cs))))
    as (-> & _ & _). simpl.
  destruct (decide (i = length cs)) as [->|Hne].
  - rewrite lookup_insert_eq. by rewrite list_lookup_middle.
  - rewrite lookup_insert_ne by done. rewrite IH.
    destruct (decide (i < length cs)).
    + by rewrite lookup_app_l.
    + rewrite !lookup_ge_None_2; [done|rewrite length_app; simpl; lia|lia].
Qed.

Lemma index2mgi_spec components i :
  index2mgi (build_classes components) !! i = components !! i ≫= last_mgi.
Proof.
  induction components as [|c cs IH] using rev_ind; [done|].
  rewrite build_classes_snoc. unfold scan_component.
  destruct (scan_members_spec (length cs) c
    (mkClasses (<[length cs:=c]> (index2component (build_classes cs)))
               (member2index (build_classes cs)) (index2mgi (build_classes cs))))
    as (_ & _ & ->). simpl.
  case_decide as Hi.
  - subst i. rewrite list_lookup_middle by done. simpl.
    destruct (last_mgi c); [done|]. rewrite IH.
    by rewrite lookup_ge_None_2 by lia.
  - rewrite IH. destruct (decide (i < length cs)).
    + by rewrite lookup_app_l.
    + rewrite !lookup_ge_None_2; [done|rewrite length_app; simpl; lia|lia].
Qed.

Lemma member2index_Some components m i :
  member2index (build_classes components) !! m = Some i →
  ∃ c, components !! i = Some c ∧ m ∈ c.
Proof.
  induction components as [|c cs IH] using rev_ind; [done|].
  rewrite build_classes_snoc. unfold scan_component.
  destruct (scan_members_spec (length cs) c
    (mkClasses (<[length cs:=c]> (index2component (build_classes cs)))
               (member2index (build_classes cs)) (index2mgi (build_classes cs))))
    as (_ & -> & _). simpl.
  case_decide.
  - intros [= <-]. exists c. by rewrite list_lookup_middle.
  - intros (c' & Hc' & Hm)%IH. exists c'. split; [|done].
    by apply lookup_app_l_Some.
Qed.

Lemma member2index_is_Some components c m :
  c ∈ components → m ∈ c →
  is_Some (member2index (build_classes components) !! m).
Proof.
  induction components as [|c' cs IH] using rev_ind; [by intros ?%elem_of_nil|].
  intros Hc Hm. rewrite build_classes_snoc. unfold scan_component.
  destruct (scan_members_spec (length cs) c'
    (mkClasses (<[length cs:=c']> (index2component (build_classes cs)))
               (member2index (build_classes cs)) (index2mgi (build_classes cs))))
    as (_ & -> & _). simpl.
  case_decide; [done|].
  apply elem_of_app in Hc as [Hc|Hc]; [by apply IH|].
  apply list_elem_of_singleton in Hc. by subst.
Qed.

Lemma member2index_disjoint components i c m :
  disjoint_components components →
  components !! i = Some c → m ∈ c →
  member2index (build_classes components) !! m = Some i.
Proof.
  intros Hdis Hc Hm.
  destruct (member2index_is_Some components c m) as [j Hj];
    [by eapply list_elem_of_lookup_2|done|].
  destruct (member2index_Some _ _ _ Hj) as (c' & Hc' & Hm').
  by rewrite (Hdis _ _ _ _ _ Hc Hc' Hm Hm').
Qed.

(** ** What the loop of cell 12 leaves in the mapping *)

Lemma build_mapping_from st ns acc n :
  foldl (map_node st) acc ns !! n =
  match (if decide (n ∈ ns)
         then member2index st !! n ≫= λ index, index2mgi st !! index
         else None) with
  | Some mgi => Some mgi
  | None => acc !! n
  end.
Proof.
  revert acc. induction ns as [|n' ns IH] using rev_ind; intros acc.
  - done.
  - rewrite foldl_app. simpl. unfold map_node at 1.
    destruct (decide (n = n')) as [<-|Hne].
    + rewrite decide_True
        by (apply elem_of_app; right; by apply list_elem_of_singleton).
      destruct (member2index st !! n) as [index|] eqn:Hindex; simpl.
      * destruct (index2mgi st !! index) as [mgi|] eqn:Hmgi.
        -- by rewrite lookup_insert_eq.
        -- rewrite IH. simpl. rewrite Hmgi. by case_decide.
      * rewrite IH. simpl. by case_decide.
    + assert (foldl (map_node st) acc ns !! n =
              match (if decide (n ∈ ns ++ [n'])
                     then member2index st !! n ≫= λ index, index2mgi st !! index
                     else None) with
              | Some mgi => Some mgi
              | None => acc !! n
              end) as <-.
      { rewrite IH.
        destruct (decide (n ∈ ns)) as [Hin|Hin],
                 (decide (n ∈ ns ++ [n'])) as [Hin'|Hin']; try done.
        - destruct Hin'. apply elem_of_app. by left.
        - apply elem_of_app in Hin' as [?|?%list_elem_of_singleton]; done. }
      destruct (member2index st !! n') as [index|]; [|done].
      destruct (index2mgi st !! index); [|done].
      by rewrite lookup_insert_ne.
Qed.

Lemma build_mapping_spec st ns n :
  build_mapping st ns !! n =
  if decide (n ∈ ns)
  then member2index st !! n ≫= λ index, index2mgi st !! index
  else None.
Proof.
  unfold build_mapping. rewrite build_mapping_from, lookup_empty.
  by destruct (if decide (n ∈ ns) then _ else _).
Qed.


(** ** Graphs: nodes, neighbours and paths *)

Lemma elem_of_neighbors G u w : w ∈ neighbors G u ↔ (u, w) ∈ g_edge G.
Proof.
  unfold neighbors. rewrite list_elem_of_fmap. split.
  - intros ([u' w'] & -> & [Hu Hin]%list_elem_of_filter). simpl in *. by subst.
  - intros Hin. exists (u, w). split; [done|].
    by apply list_elem_of_filter.
Qed.

Lemma elem_of_endpoints es x :
  x ∈ endpoints es ↔ ∃ e, e ∈ es ∧ (x = e.1 ∨ x = e.2).
Proof.
  unfold endpoints. rewrite list_elem_of_bind. split.
  - intros (e & Hx & He). exists e. split; [done|].
    apply elem_of_cons in Hx as [->|Hx]; [by left|].
    apply list_elem_of_singleton in Hx. by right.
  - intros (e & He & [->| ->]); exists e; split; try done.
    + apply elem_of_cons. by left.
    + apply elem_of_cons. right. by apply list_elem_of_singleton.
Qed.

Lemma elem_of_nodes G x :
  x ∈ nodes G ↔ x ∈ (g_node G).*1 ∨ x ∈ endpoints (g_edge G).
Proof. unfold nodes. by rewrite elem_of_remove_dups, elem_of_app. Qed.

Lemma NoDup_nodes G : NoDup (nodes G).
Proof. apply NoDup_remove_dups. Qed.

Lemma adjacent_nodes G u w : adjacent G u w → u ∈ nodes G ∧ w ∈ nodes G.
Proof.
  unfold adjacent. rewrite elem_of_neighbors. intros He.
  split; apply elem_of_nodes; right; apply elem_of_endpoints;
    exists (u, w); (split; [done|]); [by left|by right].
Qed.

Lemma to_undirected_undirected G : undirected (to_undirected G).
Proof.
  intros u w. unfold adjacent. rewrite !elem_of_neighbors. simpl.
  rewrite !elem_of_app, !list_elem_of_fmap. intros [He|([a b] & [= -> ->] & He)].
  - right. by exists (u, w).
  - by left.
Qed.

Lemma connected_sym G u w : undirected G → connected G u w → connected G w u.
Proof.
  intros Hsym. induction 1 as [|x y z Hxy _ IH]; [apply rtc_refl|].
  eapply rtc_r; [exact IH|]. by apply Hsym.
Qed.

Lemma closed_connected G c u w : closed G c → u ∈ c → connected G u w → w ∈ c.
Proof.
  intros Hc Hu Hconn. induction Hconn as [|x y z Hxy _ IH]; [done|].
  apply IH. by eapply Hc.
Qed.

(** ** The breadth-first search *)

Lemma bfs_visit_fold G level seen nextlevel :
  (∀ x, x ∈ (foldl (bfs_visit G) (seen, nextlevel) level).1 ↔
        x ∈ seen ∨ x ∈ level) ∧
  (NoDup seen → NoDup (foldl (bfs_visit G) (seen, nextlevel) level).1) ∧
  (∀ w, w ∈ (foldl (bfs_visit G) (seen, nextlevel) level).2 ↔
        w ∈ nextlevel ∨
        ∃ u, u ∈ (foldl (bfs_visit G) (seen, nextlevel) level).1 ∧
             (u ∉ seen) ∧ adjacent G u w) ∧
  (length seen ≤ length (foldl (bfs_visit G) (seen, nextlevel) level).1) ∧
  ((length (foldl (bfs_visit G) (seen, nextlevel) level).1 = length seen) →
   (foldl (bfs_visit G) (seen, nextlevel) level).2 = nextlevel).
Proof.
  revert seen nextlevel.
  induction level as [|v level IH]; intros seen nextlevel; simpl.
  - split_and!; try done.
    + intros x. split; [by left|]. by intros [?|?%elem_of_nil].
    + intros w. split; [by left|]. by intros [?|(u & ? & ? & _)].
  - replace (bfs_visit G (seen, nextlevel) v)
      with (if decide (v ∈ seen) then (seen, nextlevel)
            else (seen ++ [v], nextlevel ++ neighbors G v)) by done.
    destruct (decide (v ∈ seen)) as [Hv|Hv].
    + destruct (IH seen nextlevel) as (IH1 & IH2 & IH3 & IH4 & IH5).
      split_and!; try done.
      intros x. rewrite IH1, elem_of_cons. naive_solver.
    + destruct (IH (seen ++ [v]) (nextlevel ++ neighbors G v))
        as (IH1 & IH2 & IH3 & IH4 & IH5).
      rewrite length_app in IH4, IH5. simpl in IH4, IH5.
      split_and!.
      * intros x. rewrite IH1, elem_of_app, list_elem_of_singleton, elem_of_cons.
        naive_solver.
      * intros Hnd. apply IH2. apply NoDup_app. split_and!; [done| |].
        -- intros x Hx ->%list_elem_of_singleton. done.
        -- apply NoDup_singleton.
      * intros w. rewrite IH3, elem_of_app. split.
        -- intros [[?|Hw]|(u & Hu & Hnu & Hw)].
           ++ by left.
           ++ right. exists v. split_and!; [|done|done].
              apply IH1. left. apply elem_of_app. right.
              by apply list_elem_of_singleton.
           ++ right. exists u. split_and!; [done| |done].
              intros ?. apply Hnu. apply elem_of_app. by left.
        -- intros [?|(u & Hu & Hnu & Hw)]; [by left; left|].
           destruct (decide (u = v)) as [->|Hne]; [by left; right|].
           right. exists u. split_and!; [done| |done].
           by intros [?|?%list_elem_of_singleton]%elem_of_app.
      * lia.
      * lia.
Qed.

Lemma bfs_levels_spec G source fuel seen nextlevel :
  NoDup seen →
  (∀ x, x ∈ seen → x ∈ nodes G) →
  (∀ x, x ∈ nextlevel → x ∈ nodes G) →
  (∀ u w, u ∈ seen → adjacent G u w → w ∈ seen ∨ w ∈ nextlevel) →
  (∀ x, x ∈ seen ∨ x ∈ nextlevel → connected G source x) →
  nextlevel = [] ∨ length (nodes G) < fuel + length seen →
  NoDup (bfs_levels fuel G seen nextlevel) ∧
  (∀ x, x ∈ seen ∨ x ∈ nextlevel → x ∈ bfs_levels fuel G seen nextlevel) ∧
  (∀ x, x ∈ bfs_levels fuel G seen nextlevel → x ∈ nodes G) ∧
  closed G (bfs_levels fuel G seen nextlevel) ∧
  (∀ x, x ∈ bfs_levels fuel G seen nextlevel → connected G source x).
Proof.
  revert seen nextlevel.
  induction fuel as [|fuel IH]; intros seen nextlevel Hnd Hseen Hnext Hadj Hconn Hfuel.
  - destruct nextlevel as [|v nextlevel]; simpl.
    + split_and!; try done.
      * by intros x [?|?%elem_of_nil].
      * intros u w Hu Hw. by destruct (Hadj u w Hu Hw) as [?|?%elem_of_nil].
      * intros x Hx. apply Hconn. by left.
    + destruct Hfuel as [?|Hfuel]; [done|]. exfalso.
      pose proof (submseteq_length _ _ (NoDup_submseteq _ _ Hnd Hseen)). simpl in *. lia.
  - destruct nextlevel as [|v nextlevel]; simpl.
    + split_and!; try done.
      * by intros x [?|?%elem_of_nil].
      * intros u w Hu Hw. by destruct (Hadj u w Hu Hw) as [?|?%elem_of_nil].
      * intros x Hx. apply Hconn. by left.
    + destruct (bfs_visit_fold G (v :: nextlevel) seen [])
        as (F1 & F2 & F3 & F4 & F5). simpl in F1, F2, F3, F4, F5.
      set (acc := foldl (bfs_visit G) (bfs_visit G (seen, []) v) nextlevel) in *.
      destruct (IH acc.1 acc.2) as (R1 & R2 & R3 & R4 & R5).
      * by apply F2.
      * intros x [?|?]%F1; [by apply Hseen|by apply Hnext].
      * intros w [?%elem_of_nil|(u & _ & _ & Hw)]%F3; [done|].
        by apply adjacent_nodes in Hw as [_ ?].
      * intros u w Hu Hw. destruct (decide (u ∈ seen)) as [Hin|Hin].
        -- left. apply F1. by apply Hadj in Hw.
        -- right. apply F3. right. by exists u.
      * intros x [[?|?]%F1|[?%elem_of_nil|(u & [?|?]%F1 & _ & Hw)]%F3];
          try done; try (apply Hconn; by auto).
        -- eapply rtc_r; [apply Hconn; left; eassumption|done].
        -- eapply rtc_r; [apply Hconn; right; eassumption|done].
      * destruct (decide (length acc.1 = length seen)) as [Heq|Hne].
        -- left. by apply F5.
        -- right. destruct Hfuel as [?|Hfuel]; [done|]. lia.
      * split_and!; try done.
        intros x Hx. apply R2. left. by apply F1.
Qed.

Lemma plain_bfs_spec G source :
  source ∈ nodes G →
  NoDup (plain_bfs G source) ∧ source ∈ plain_bfs G source ∧
  (∀ x, x ∈ plain_bfs G source → x ∈ nodes G) ∧
  closed G (plain_bfs G source) ∧
  (∀ x, x ∈ plain_bfs G source → connected G source x).
Proof.
  intros Hsource. unfold plain_bfs.
  destruct (bfs_levels_spec G source (S (length (nodes G))) [] [source])
    as (R1 & R2 & R3 & R4 & R5).
  - apply NoDup_nil_2.
  - by intros x ?%elem_of_nil.
  - by intros x ->%list_elem_of_singleton.
  - by intros u w ?%elem_of_nil.
  - intros x [?%elem_of_nil| ->%list_elem_of_singleton]; [done|apply rtc_refl].
  - right. simpl. lia.
  - split_and!; try done. apply R2. right. by apply list_elem_of_singleton.
Qed.

Lemma plain_bfs_component G source :
  undirected G → source ∈ nodes G → is_component G (plain_bfs G source).
Proof.
  intros Hsym Hsource.
  destruct (plain_bfs_spec G source Hsource) as (R1 & R2 & R3 & R4 & R5).
  split_and!; try done.
  - intros Hnil. rewrite Hnil in R2. by apply elem_of_nil in R2.
  - intros x y Hx Hy. etrans; [|by apply R5].
    apply connected_sym; [done|]. by apply R5.
Qed.

(** ** The components *)

Lemma component_step_fold G l seen comps :
  undirected G →
  (∀ v, v ∈ l → v ∈ nodes G) →
  (∀ x, x ∈ seen ↔ ∃ c, c ∈ comps ∧ x ∈ c) →
  Forall (is_component G) comps →
  disjoint_components comps →
  (∀ x, x ∈ (foldl (component_step G) (seen, comps) l).1 ↔
        ∃ c, c ∈ (foldl (component_step G) (seen, comps) l).2 ∧ x ∈ c) ∧
  Forall (is_component G) (foldl (component_step G) (seen, comps) l).2 ∧
  disjoint_components (foldl (component_step G) (seen, comps) l).2 ∧
  (∀ v, v ∈ seen ∨ v ∈ l → v ∈ (foldl (component_step G) (seen, comps) l).1).
Proof.
  intros Hsym. revert seen comps.
  induction l as [|v l IH]; intros seen comps Hl Hseen Hcomps Hdis; simpl.
  - split_and!; try done. by intros v [?|?%elem_of_nil].
  - replace (component_step G (seen, comps) v)
      with (if decide (v ∈ seen) then (seen, comps)
            else (seen ++ plain_bfs G v, comps ++ [plain_bfs G v])) by done.
    assert (∀ v, v ∈ l → v ∈ nodes G) as Hl'
      by (intros x Hx; apply Hl; by apply elem_of_cons; right).
    destruct (decide (v ∈ seen)) as [Hv|Hv].
    + destruct (IH seen comps) as (R1 & R2 & R3 & R4); try done.
      split_and!; try done.
      intros x [?|[->|?]%elem_of_cons]; apply R4; auto.
    + assert (v ∈ nodes G) as Hvn by (apply Hl; by apply elem_of_cons; left).
      pose proof (plain_bfs_component G v Hsym Hvn) as Hc.
      destruct (plain_bfs_spec G v Hvn) as (_ & Hvc & _ & _ & Hvconn).
      destruct (IH (seen ++ plain_bfs G v) (comps ++ [plain_bfs G v]))
        as (R1 & R2 & R3 & R4); try done.
      * intros x. rewrite elem_of_app, Hseen. split.
        -- intros [(c & Hc1 & Hc2)|Hx].
           ++ exists c. split; [|done]. apply elem_of_app. by left.
           ++ exists (plain_bfs G v). split; [|done]. apply elem_of_app. right.
              by apply list_elem_of_singleton.
        -- intros (c & [Hc1| ->%list_elem_of_singleton]%elem_of_app & Hc2).
           ++ left. by exists c.
           ++ by right.
      * apply Forall_app. split; [done|]. by apply Forall_singleton.
      * assert (∀ i ci m, comps !! i = Some ci → m ∈ ci →
                  m ∈ plain_bfs G v → False) as Hfresh.
        { intros i ci m Hi Hm Hm'.
          apply Hv, Hseen. exists ci. split; [by eapply list_elem_of_lookup_2|].
          pose proof (proj1 (Forall_lookup _ _) Hcomps i ci Hi)
            as (_ & _ & _ & Hclosed & _).
          eapply closed_connected; [done|exact Hm|].
          apply connected_sym; [done|]. by apply Hvconn. }
        intros i j ci cj m Hi Hj Hmi Hmj.
        apply lookup_app_Some in Hi as [Hi|[Hil Hi]];
          apply lookup_app_Some in Hj as [Hj|[Hjl Hj]].
        -- by eapply Hdis.
        -- apply list_lookup_singleton_Some in Hj as [_ <-].
           by destruct (Hfresh i ci m).
        -- apply list_lookup_singleton_Some in Hi as [_ <-].
           by destruct (Hfresh j cj m).
        -- apply list_lookup_singleton_Some in Hi as [? _].
           apply list_lookup_singleton_Some in Hj as [? _]. lia.
      * split_and!; try done.
        intros x [?|[->|?]%elem_of_cons]; apply R4.
        -- left. apply elem_of_app. by left.
        -- left. apply elem_of_app. by right.
        -- by right.
Qed.

Lemma connected_components_spec G :
  undirected G →
  (∀ v, v ∈ nodes G ↔ ∃ c, c ∈ connected_components G ∧ v ∈ c) ∧
  Forall (is_component G) (connected_components G) ∧
  disjoint_components (connected_components G).
Proof.
  intros Hsym. unfold connected_components.
  destruct (component_step_fold G (nodes G) [] []) as (R1 & R2 & R3 & R4);
    try done.
  - intros x. split; [by intros ?%elem_of_nil|].
    by intros (c & ?%elem_of_nil & _).
  - split_and!; try done. intros v. split.
    + intros Hv. apply R1, R4. by right.
    + intros (c & Hc & Hv).
      pose proof (proj1 (Forall_forall _ _) R2 c Hc) as (_ & _ & Hn & _).
      by apply Hn.
Qed.

Lemma orthology_components G :
  (∀ v, v ∈ nodes (to_undirected G) ↔
        ∃ c, c ∈ connected_components (to_undirected G) ∧ v ∈ c) ∧
  Forall (is_component (to_undirected G))
         (connected_components (to_undirected G)) ∧
  disjoint_components (connected_components (to_undirected G)).
Proof. apply connected_components_spec, to_undirected_undirected. Qed.

(** ** The mapping of an orthology graph *)

Lemma canonical_mapping_lookup G n :
  canonical_mapping G !! n =
  if decide (n ∈ nodes (to_undirected G))
  then member2index (orthology_classes G) !! n ≫=
         λ index, index2mgi (orthology_classes G) !! index
  else None.
Proof. apply build_mapping_spec. Qed.

Lemma component_nodes G i c m :
  connected_components (to_undirected G) !! i = Some c → m ∈ c →
  m ∈ nodes (to_undirected G).
Proof.
  intros Hc Hm. destruct (orthology_components G) as (Hcover & _ & _).
  apply Hcover. exists c. split; [by eapply list_elem_of_lookup_2|done].
Qed.

Lemma component_member2index G i c m :
  connected_components (to_undirected G) !! i = Some c → m ∈ c →
  member2index (orthology_classes G) !! m = Some i.
Proof.
  intros Hc Hm. destruct (orthology_components G) as (_ & _ & Hdis).
  by eapply member2index_disjoint.
Qed.

Lemma canonical_mapping_Some G k r :
  canonical_mapping G !! k = Some r ↔
  ∃ i c, connected_components (to_undirected G) !! i = Some c ∧
         k ∈ c ∧ last_mgi c = Some r.
Proof.
  rewrite canonical_mapping_lookup. split.
  - case_decide; [|done].
    destruct (member2index (orthology_classes G) !! k) as [i|] eqn:Hi; [|done].
    simpl. unfold orthology_classes in *. rewrite index2mgi_spec.
    apply member2index_Some in Hi as (c & Hc & Hk). rewrite Hc. simpl.
    intros Hr. by exists i, c.
  - intros (i & c & Hc & Hk & Hr).
    rewrite decide_True by (by eapply component_nodes).
    rewrite (component_member2index G i c k Hc Hk). simpl.
    unfold orthology_classes. rewrite index2mgi_spec, Hc. done.
Qed.

Lemma canonical_mapping_fixed G k r :
  canonical_mapping G !! k = Some r → canonical_mapping G !! r = Some r.
Proof.
  rewrite !canonical_mapping_Some. intros (i & c & Hc & Hk & Hr).
  exists i, c. split_and!; [done| |done]. by apply last_mgi_Some in Hr as [? _].
Qed.

Lemma last_mgi_middle l1 r l2 :
  gi_namespace r = "MGI" →
  (∀ m, m ∈ l2 → gi_namespace m ≠ "MGI") →
  last_mgi (l1 ++ r :: l2) = Some r.
Proof.
  intros Hr Hl2. unfold last_mgi.
  rewrite filter_app, filter_cons, decide_True by done.
  replace (filter (λ m, "MGI" = gi_namespace m) l2) with (@nil GeneIdentifier).
  - by rewrite last_snoc.
  - symmetry. apply elem_of_nil_inv. intros m [? ?]%list_elem_of_filter.
    by eapply Hl2.
Qed.

(** ** Cell 17 on a corpus *)

Lemma node_store_dom l store :
  dom (foldl (λ store nd, add_node store nd.1 nd.2) store l) =
  dom store ∪ list_to_set l.*1.
Proof.
  revert store. induction l as [|[n d] l IH]; intros store; simpl.
  - set_solver.
  - rewrite IH. unfold add_node. rewrite dom_insert_L. set_solver.
Qed.

Lemma node_data_is_Some G n : is_Some (node_data G n) ↔ n ∈ nodes G.
Proof.
  unfold node_data, node_store. rewrite <-elem_of_dom, node_store_dom.
  rewrite dom_gset_to_gmap, elem_of_union, !elem_of_list_to_set, elem_of_nodes.
  tauto.
Qed.

Lemma map_node_data_step_None orthology_undirected mapping l :
  foldl (map_node_data_step orthology_undirected mapping) None l = None.
Proof. by induction l. Qed.

Lemma map_node_data_step_Some orthology_undirected mapping g n d :
  c_node g !! n = Some d →
  map_node_data_step orthology_undirected mapping (Some g) (n, d) =
  d' ← mapped_data orthology_undirected mapping n d;
  Some (mkCorpus (<[n := d']> (c_node g)) (c_edge g)).
Proof.
  intros Hn. unfold map_node_data_step, mapped_data. simpl.
  destruct (d !! "type") as [ty|]; [simpl|done].
  case_decide.
  - destruct (mapping !! n) as [target|]; [simpl|done].
    by destruct (node_data orthology_undirected target).
  - simpl. rewrite insert_id by done. by destruct g.
Qed.

Lemma map_node_data_fold orthology_undirected mapping l g0 :
  NoDup l.*1 →
  (∀ n d, (n, d) ∈ l → c_node g0 !! n = Some d) →
  match foldl (map_node_data_step orthology_undirected mapping) (Some g0) l with
  | Some g' =>
      c_edge g' = c_edge g0 ∧
      (∀ n d, (n, d) ∈ l →
              is_Some (mapped_data orthology_undirected mapping n d)) ∧
      ∀ n, c_node g' !! n =
           if decide (n ∈ l.*1)
           then c_node g0 !! n ≫= mapped_data orthology_undirected mapping n
           else c_node g0 !! n
  | None =>
      ∃ n d, (n, d) ∈ l ∧ mapped_data orthology_undirected mapping n d = None
  end.
Proof.
  revert g0. induction l as [|[n0 d0] l IH]; intros g0 Hnd Hl; cbn [foldl].
  - split_and!; [done|by intros n d ?%elem_of_nil|done].
  - rewrite fmap_cons in Hnd. simpl in Hnd. apply NoDup_cons in Hnd as [Hn0 Hnd].
    rewrite map_node_data_step_Some by (apply Hl; left).
    destruct (mapped_data orthology_undirected mapping n0 d0) as [d'|] eqn:Hd';
      simpl.
    + specialize (IH (mkCorpus (<[n0:=d']> (c_node g0)) (c_edge g0)) Hnd).
      simpl in IH.
      destruct (foldl _ _ l) as [g'|].
      * destruct IH as (IH1 & IH3 & IH2).
        { intros n d Hin. rewrite lookup_insert_ne; [apply Hl; by right|].
          intros ->. apply Hn0. apply list_elem_of_fmap. by exists (n, d). }
        split_and!; [done| |].
        { intros n d [[= -> ->]|Hin]%elem_of_cons; [by rewrite Hd'|].
          by apply IH3. }
        intros n. rewrite IH2.
        destruct (decide (n = n0)) as [->|Hne].
        -- rewrite decide_False by done. rewrite lookup_insert_eq.
           rewrite decide_True by left. rewrite (Hl n0 d0) by left. done.
        -- rewrite lookup_insert_ne by done.
           destruct (decide (n ∈ l.*1)) as [Hin|Hin].
           ++ rewrite decide_True by (by right). done.
           ++ rewrite decide_False; [done|].
              by intros [?|?]%elem_of_cons.
      * destruct IH as (n & d & Hin & Hnone).
        { intros n d Hin. rewrite lookup_insert_ne; [apply Hl; by right|].
          intros ->. apply Hn0. apply list_elem_of_fmap. by exists (n, d). }
        exists n, d. split; [by right|done].
    + rewrite map_node_data_step_None. exists n0, d0. split; [left|done].
Qed.

Lemma map_node_data_spec orthology_undirected mapping g :
  match map_node_data orthology_undirected mapping g with
  | Some g' =>
      c_edge g' = c_edge g ∧
      (∀ n d, c_node g !! n = Some d →
              is_Some (mapped_data orthology_undirected mapping n d)) ∧
      ∀ n, c_node g' !! n =
           c_node g !! n ≫= mapped_data orthology_undirected mapping n
  | None =>
      ∃ n d, c_node g !! n = Some d ∧
             mapped_data orthology_undirected mapping n d = None
  end.
Proof.
  unfold map_node_data.
  pose proof (map_node_data_fold orthology_undirected mapping
                (map_to_list (c_node g)) g (NoDup_fst_map_to_list _)) as Hfold.
  destruct (foldl _ _ _) as [g'|].
  - destruct Hfold as (H1 & H3 & H2); [by intros n d ?%elem_of_map_to_list|].
    split_and!; [done| |].
    { intros n d Hn. apply H3. by apply elem_of_map_to_list. }
    intros n. rewrite H2. case_decide as Hin; [done|].
    destruct (c_node g !! n) as [d|] eqn:Hn; [|done].
    destruct Hin. apply list_elem_of_fmap. exists (n, d).
    split; [done|]. by apply elem_of_map_to_list.
  - destruct Hfold as (n & d & Hin & Hnone);
      [by intros n d ?%elem_of_map_to_list|].
    exists n, d. split; [by apply elem_of_map_to_list|done].
Qed.

(** ** Relabelling a corpus *)

Lemma NoDup_fst_unique {A B} (l : list (A * B)) x y1 y2 :
  NoDup l.*1 → (x, y1) ∈ l → (x, y2) ∈ l → y1 = y2.
Proof.
  induction l as [|[x' y'] l IH]; [by intros _ ?%elem_of_nil|].
  rewrite fmap_cons. simpl. intros [Hx' Hnd]%NoDup_cons.
  intros [[= -> ->]|H1]%elem_of_cons [[= ->]|H2]%elem_of_cons.
  - done.
  - destruct Hx'. apply list_elem_of_fmap. by exists (x', y2).
  - subst. destruct Hx'. apply list_elem_of_fmap. by exists (x', y1).
  - by apply IH.
Qed.

Lemma relabel_store_snoc f l nd :
  relabel_store f (l ++ [nd]) = add_node (relabel_store f l) (f nd.1) nd.2.
Proof. unfold relabel_store. by rewrite foldl_app. Qed.

(** The data found under a name after the relabelling: the data of the
    nodes that took this name, each one updating what came before. *)
Lemma relabel_store_lookup f l r :
  relabel_store f l !! r =
  match reverse (filter (λ nd, f nd.1 = r) l).*2 with
  | [] => None
  | d :: ds => Some (⋃ (d :: ds))
  end.
Proof.
  induction l as [|[n d] l IH] using rev_ind; [done|].
  rewrite relabel_store_snoc, filter_app, fmap_app. simpl. unfold add_node.
  destruct (decide (f n = r)) as [Heq|Hne].
  - rewrite filter_cons_True, filter_nil by done. simpl.
    rewrite reverse_snoc, Heq, lookup_insert_eq, IH. unfold update.
    destruct (reverse _) as [|d' ds]; simpl; [|done].
    by rewrite !(right_id_L ∅ (∪)).
  - rewrite filter_cons_False, filter_nil by done. simpl.
    rewrite app_nil_r, lookup_insert_ne by done. apply IH.
Qed.

Lemma relabel_store_is_Some f l r :
  is_Some (relabel_store f l !! r) ↔ ∃ n d, (n, d) ∈ l ∧ f n = r.
Proof.
  rewrite relabel_store_lookup. split.
  - intros Hsome.
    destruct (filter (λ nd, f nd.1 = r) l) as [|[n d] fl] eqn:Hfl.
    { simpl in Hsome. by destruct Hsome. }
    assert ((n, d) ∈ filter (λ nd, f nd.1 = r) l) as Hin by (rewrite Hfl; left).
    apply list_elem_of_filter in Hin as [? ?]. by exists n, d.
  - intros (n & d & Hin & Hr).
    assert ((n, d) ∈ filter (λ nd, f nd.1 = r) l) as Hin'
      by (by apply list_elem_of_filter).
    apply (list_elem_of_fmap_2 snd) in Hin'. apply elem_of_reverse in Hin'.
    destruct (reverse _); [by apply elem_of_nil in Hin'|done].
Qed.

Lemma relabel_store_alone f l n d :
  NoDup l.*1 → (n, d) ∈ l →
  (∀ n' d', (n', d') ∈ l → f n' = f n → n' = n) →
  relabel_store f l !! f n = Some d.
Proof.
  intros Hnd Hin Halone. rewrite relabel_store_lookup.
  assert (filter (λ nd, f nd.1 = f n) l = [(n, d)]) as ->.
  { apply Permutation_singleton_r. apply NoDup_Permutation.
    - apply NoDup_filter. by apply NoDup_fmap_1 in Hnd.
    - apply NoDup_singleton.
    - intros [n' d']. rewrite list_elem_of_filter, list_elem_of_singleton. simpl.
      split.
      + intros [Hf Hin']. assert (n' = n) as -> by (by eapply Halone).
        f_equal. by eapply NoDup_fst_unique.
      + by intros [= -> ->]. }
  simpl. by rewrite (right_id_L ∅ (∪)).
Qed.

Lemma relabel_nodes_is_Some f g r :
  is_Some (c_node (relabel_nodes f g) !! r) ↔
  ∃ n, is_Some (c_node g !! n) ∧ f n = r.
Proof.
  simpl. rewrite relabel_store_is_Some. split.
  - intros (n & d & Hin%elem_of_map_to_list & Hr). exists n. by rewrite Hin.
  - intros (n & [d Hn] & Hr). exists n, d. by rewrite elem_of_map_to_list.
Qed.

Lemma relabel_nodes_alone f g n d :
  c_node g !! n = Some d →
  (∀ n', is_Some (c_node g !! n') → f n' = f n → n' = n) →
  c_node (relabel_nodes f g) !! f n = Some d.
Proof.
  intros Hn Halone. simpl. apply relabel_store_alone.
  - apply NoDup_fst_map_to_list.
  - by apply elem_of_map_to_list.
  - intros n' d' Hin%elem_of_map_to_list. apply Halone. by rewrite Hin.
Qed.

Lemma relabel_Some mapping n r : mapping !! n = Some r → relabel mapping n = r.
Proof. unfold relabel. by intros ->. Qed.

Lemma relabel_None mapping n : mapping !! n = None → relabel mapping n = n.
Proof. unfold relabel. by intros ->. Qed.

(** ** The two cells on the mapping of an orthology graph *)

Lemma canonical_mapping_node_data orthology n r :
  canonical_mapping orthology !! n = Some r →
  is_Some (node_data (to_undirected orthology) r).
Proof.
  intros (i & c & Hc & _ & [Hr _]%last_mgi_Some)%canonical_mapping_Some.
  apply node_data_is_Some. by eapply component_nodes.
Qed.

Lemma mapped_data_is_Some orthology n d :
  is_Some (d !! "type") →
  is_Some (mapped_data (to_undirected orthology) (canonical_mapping orthology) n d).
Proof.
  intros [ty Hty]. unfold mapped_data. rewrite Hty. simpl.
  case_decide as Hcond; [|done]. destruct Hcond as [_ [r Hr]].
  rewrite Hr. simpl.
  by destruct (canonical_mapping_node_data orthology n r Hr) as [other ->].
Qed.

Lemma apply_mapping_spec orthology g g' :
  apply_mapping orthology g = Some g' →
  ∃ g1,
    g' = relabel_nodes (relabel (canonical_mapping orthology)) g1 ∧
    c_edge g1 = c_edge g ∧
    (∀ n d, c_node g !! n = Some d →
       is_Some (mapped_data (to_undirected orthology)
                            (canonical_mapping orthology) n d)) ∧
    (∀ n, c_node g1 !! n =
          c_node g !! n ≫= mapped_data (to_undirected orthology)
                                        (canonical_mapping orthology) n).
Proof.
  unfold apply_mapping.
  pose proof (map_node_data_spec (to_undirected orthology)
                (canonical_mapping orthology) g) as Hspec.
  destruct (map_node_data _ _ g) as [g1|]; [|done]. simpl.
  intros [= <-]. exists g1. by destruct Hspec as (? & ? & ?).
Qed.

Lemma apply_mapping_is_Some orthology g :
  (∀ n d, c_node g !! n = Some d → is_Some (d !! "type")) →
  is_Some (apply_mapping orthology g).
Proof.
  intros Htype. unfold apply_mapping.
  pose proof (map_node_data_spec (to_undirected orthology)
                (canonical_mapping orthology) g) as Hspec.
  destruct (map_node_data _ _ g) as [g1|]; [done|].
  destruct Hspec as (n & d & Hn & Hnone).
  destruct (mapped_data_is_Some orthology n d) as [? ?]; [by eapply Htype|].
  congruence.
Qed.

Lemma mapped_data_dom orthology g g1 n :
  (∀ n d, c_node g !! n = Some d →
     is_Some (mapped_data (to_undirected orthology)
                          (canonical_mapping orthology) n d)) →
  (∀ n, c_node g1 !! n =
        c_node g !! n ≫= mapped_data (to_undirected orthology)
                                      (canonical_mapping orthology) n) →
  is_Some (c_node g1 !! n) ↔ is_Some (c_node g !! n).
Proof.
  intros Hsome Hg1. rewrite Hg1.
  destruct (c_node g !! n) as [d|] eqn:Hn; simpl.
  - split; [done|]. intros _. by apply Hsome.
  - done.
Qed.

Lemma relabel_store_pair f l n1 d1 n2 d2 r :
  NoDup l.*1 → (n1, d1) ∈ l → (n2, d2) ∈ l → n1 ≠ n2 →
  f n1 = r → f n2 = r →
  (∀ n d, (n, d) ∈ l → f n = r → n = n1 ∨ n = n2) →
  relabel_store f l !! r = Some (update d1 d2) ∨
  relabel_store f l !! r = Some (update d2 d1).
Proof.
  intros Hnd H1 H2 Hne Hf1 Hf2 Honly. rewrite relabel_store_lookup.
  assert ([(n1, d1); (n2, d2)] ≡ₚ filter (λ nd, f nd.1 = r) l) as Hperm.
  { apply NoDup_Permutation.
    - apply NoDup_cons. split; [|apply NoDup_singleton].
      intros [= ? _]%list_elem_of_singleton. done.
    - apply NoDup_filter. by apply NoDup_fmap_1 in Hnd.
    - intros [n d]. rewrite list_elem_of_filter, elem_of_cons,
        list_elem_of_singleton. simpl. split.
      + by intros [[= -> ->]|[= -> ->]].
      + intros [Hf Hin]. destruct (Honly n d Hin Hf) as [-> | ->].
        * left. f_equal. by eapply NoDup_fst_unique.
        * right. f_equal. by eapply NoDup_fst_unique. }
  apply Permutation_length_2_inv in Hperm as [-> | ->]; simpl; unfold update;
    rewrite (right_id_L ∅ (∪)); auto.
Qed.

(** ** The mapping for any scan of the components *)

Lemma build_mapping_Some components ns k r :
  disjoint_components components →
  (∀ c m, c ∈ components → m ∈ c → m ∈ ns) →
  build_mapping (build_classes components) ns !! k = Some r ↔
  ∃ i c, components !! i = Some c ∧ k ∈ c ∧ last_mgi c = Some r.
Proof.
  intros Hdis Hmem. rewrite build_mapping_spec. split.
  - case_decide; [|done].
    destruct (member2index (build_classes components) !! k) as [i|] eqn:Hi;
      [|done].
    simpl. rewrite index2mgi_spec.
    apply member2index_Some in Hi as (c & Hc & Hk). rewrite Hc. simpl.
    intros Hr. by exists i, c.
  - intros (i & c & Hc & Hk & Hr).
    rewrite decide_True
      by (apply (Hmem c); [by eapply list_elem_of_lookup_2|done]).
    rewrite (member2index_disjoint components i c k Hdis Hc Hk). simpl.
    by rewrite index2mgi_spec, Hc.
Qed.

Lemma disjoint_components_rearranged components components' :
  Forall2 (≡ₚ) components components' →
  disjoint_components components → disjoint_components components'.
Proof.
  intros Hscan Hdis i j ci' cj' m Hi Hj Hmi Hmj.
  destruct (Forall2_lookup_r _ _ _ _ _ Hscan Hi) as (ci & Hci & Hpi).
  destruct (Forall2_lookup_r _ _ _ _ _ Hscan Hj) as (cj & Hcj & Hpj).
  rewrite <-Hpi in Hmi. rewrite <-Hpj in Hmj. by eapply Hdis.
Qed.

Lemma build_mapping_rearranged components components' ns ns' :
  disjoint_components components →
  (∀ c m, c ∈ components → m ∈ c → m ∈ ns) →
  Forall2 (λ c c', c ≡ₚ c' ∧ last_mgi c = last_mgi c')
          components components' →
  (∀ n, n ∈ ns' ↔ n ∈ ns) →
  build_mapping (build_classes components') ns' =
  build_mapping (build_classes components) ns.
Proof.
  intros Hdis Hmem Hsame Hns.
  assert (Forall2 (≡ₚ) components components') as Hscan
    by (eapply Forall2_impl; [exact Hsame|by intros c c' [? _]]).
  assert (disjoint_components components') as Hdis'
    by (by eapply disjoint_components_rearranged).
  assert (∀ c m, c ∈ components' → m ∈ c → m ∈ ns') as Hmem'.
  { intros c' m [i Hi]%list_elem_of_lookup_1 Hm.
    destruct (Forall2_lookup_r _ _ _ _ _ Hscan Hi) as (c & Hc & Hp).
    apply Hns, (Hmem c); [by eapply list_elem_of_lookup_2|by rewrite Hp]. }
  apply map_eq. intros k. apply option_eq. intros r.
  rewrite !build_mapping_Some by done. split.
  - intros (i & c' & Hc' & Hk & Hr).
    destruct (Forall2_lookup_r _ _ _ _ _ Hsame Hc') as (c & Hc & Hp & Hlast).
    exists i, c. split_and!; [done|by rewrite Hp|congruence].
  - intros (i & c & Hc & Hk & Hr).
    destruct (Forall2_lookup_l _ _ _ _ _ Hsame Hc) as (c' & Hc' & Hp & Hlast).
    exists i, c'. split_and!; [done|by rewrite <-Hp|congruence].
Qed.

(** * The claims *)

(** C7. For every input edge set, the components computed in the partition
    step form a partition of the nodes of the graph: every node lies in
    exactly one component, two distinct components share no node, and the
    components hold nothing but nodes of the graph. *)
Theorem components_partition (E : Graph) :
  (∀ v, v ∈ nodes (to_undirected E) →
     ∃ i c, connected_components (to_undirected E) !! i = Some c ∧ v ∈ c ∧
            ∀ j c', connected_components (to_undirected E) !! j = Some c' →
                    v ∈ c' → j = i) ∧
  (∀ i j ci cj v,
     connected_components (to_undirected E) !! i = Some ci →
     connected_components (to_undirected E) !! j = Some cj →
     i ≠ j → v ∈ ci → v ∉ cj) ∧
  (∀ i c v, connected_components (to_undirected E) !! i = Some c →
            v ∈ c → v ∈ nodes (to_undirected E)).
Proof.
  destruct (orthology_components E) as (Hcover & Hcomp & Hdis). split_and!.
  - intros v (c & [i Hi]%list_elem_of_lookup_1 & Hv)%Hcover.
    exists i, c. split_and!; [done|done|].
    intros j c' Hj Hv'. by eapply Hdis.
  - intros i j ci cj v Hi Hj Hne Hvi Hvj. apply Hne. by eapply Hdis.
  - intros i c v Hi Hv. by eapply component_nodes.
Qed.

Lemma components_partition_witness :
  ∃ i c, connected_components (to_undirected tp53_orthology) !! i = Some c ∧
         Tp53 ∈ c ∧
         ∀ j c', connected_components (to_undirected tp53_orthology) !! j = Some c' →
                 Tp53 ∈ c' → j = i.
Proof.
  apply (proj1 (components_partition tp53_orthology) Tp53).
  vm_compute. repeat constructor.
Defined.

(** C10. Every node of the undirected orthology graph is a key of
    [member2index], so the first [continue] of the loop that builds the
    mapping is never taken and the lookup that follows it never fails. *)
Theorem member2index_covers_nodes (orthology : Graph) (n : GeneIdentifier) :
  n ∈ nodes (to_undirected orthology) →
  ∃ index c,
    member2index (orthology_classes orthology) !! n = Some index ∧
    connected_components (to_undirected orthology) !! index = Some c ∧ n ∈ c.
Proof.
  intros Hn. destruct (orthology_components orthology) as (Hcover & _ & _).
  apply Hcover in Hn as (c & [i Hi]%list_elem_of_lookup_1 & Hn).
  exists i, c. split_and!; [|done|done]. by eapply component_member2index.
Qed.

Lemma member2index_covers_nodes_witness :
  ∃ index c,
    member2index (orthology_classes tp53_orthology) !! TP53 = Some index ∧
    connected_components (to_undirected tp53_orthology) !! index = Some c ∧
    TP53 ∈ c.
Proof.
  apply (member2index_covers_nodes tp53_orthology TP53).
  vm_compute. repeat constructor.
Defined.

(** C4. The mapping is idempotent after one application: looking up a value
    [r] of the mapping, with [r] as the default, gives [r] back. *)
Theorem mapping_idempotent (orthology : Graph) (k r : GeneIdentifier) :
  canonical_mapping orthology !! k = Some r →
  default r (canonical_mapping orthology !! r) = r.
Proof. intros Hk. by rewrite (canonical_mapping_fixed _ _ _ Hk). Qed.

Lemma mapping_idempotent_witness :
  default Trp53 (canonical_mapping tp53_orthology !! Trp53) = Trp53.
Proof. apply (mapping_idempotent tp53_orthology TP53 Trp53). reflexivity. Defined.

(** C5, as the spec states it, fails: for one and the same order of the
    nodes and edges of the input, the mapping is not fixed. The members of
    a component are a Python set, and with two members of the namespace MGI
    the scan of cell 11 in another order keeps another representative. *)
Lemma mapping_fixed_by_input_order_false :
  ¬ (∀ components,
       Forall2 (≡ₚ) (connected_components (to_undirected two_mgi_orthology))
               components →
       build_mapping (build_classes components)
                     (nodes (to_undirected two_mgi_orthology)) =
       canonical_mapping two_mgi_orthology).
Proof.
  intros Hfixed. specialize (Hfixed two_mgi_other_scan).
  assert (build_mapping (build_classes two_mgi_other_scan)
            (nodes (to_undirected two_mgi_orthology)) !! TP53 =
          canonical_mapping two_mgi_orthology !! TP53) as Hsame.
  { rewrite Hfixed; [done|]. apply Forall2_cons. split; [|apply Forall2_nil_2].
    apply (bool_decide_unpack _). vm_compute. exact I. }
  vm_compute in Hsame. discriminate Hsame.
Qed.

(** C5, amended. Whatever the order in which cell 11 scans the members of
    each component, every value of the mapping is in the namespace MGI and
    lies in the same connected component of the undirected orthology graph
    as its key. The mapping is fixed by the order of the scan only: it is
    the same for every order of the loop of cell 12, and for two scans of
    the components that end on the same member of MGI in each component;
    when no component has two members of MGI it is the same for every
    scan. *)
Theorem mapping_values_sound (orthology : Graph)
    (components : list (list GeneIdentifier)) (ns : list GeneIdentifier) :
  Forall2 (≡ₚ) (connected_components (to_undirected orthology)) components →
  (∀ n, n ∈ ns ↔ n ∈ nodes (to_undirected orthology)) →
  (∀ k v, build_mapping (build_classes components) ns !! k = Some v →
     gi_namespace v = "MGI" ∧
     (∃ i c, connected_components (to_undirected orthology) !! i = Some c ∧
             k ∈ c ∧ v ∈ c) ∧
     connected (to_undirected orthology) k v) ∧
  (∀ components' ns',
     Forall2 (λ c c', c ≡ₚ c' ∧ last_mgi c = last_mgi c')
             components components' →
     (∀ n, n ∈ ns' ↔ n ∈ ns) →
     build_mapping (build_classes components') ns' =
     build_mapping (build_classes components) ns) ∧
  ((∀ c r r', c ∈ components → r ∈ c → r' ∈ c →
              gi_namespace r = "MGI" → gi_namespace r' = "MGI" → r = r') →
   build_mapping (build_classes components) ns =
   canonical_mapping orthology).
Proof.
  intros Hscan Hns.
  destruct (orthology_components orthology) as (Hcover & Hcomp & Hdis).
  assert (∀ c m, c ∈ connected_components (to_undirected orthology) →
                 m ∈ c → m ∈ nodes (to_undirected orthology)) as Hmem.
  { intros c m Hc Hm. apply Hcover. by exists c. }
  assert (disjoint_components components) as Hdis'
    by (by eapply disjoint_components_rearranged).
  assert (∀ c m, c ∈ components → m ∈ c → m ∈ ns) as Hmem'.
  { intros c' m [i Hi]%list_elem_of_lookup_1 Hm.
    destruct (Forall2_lookup_r _ _ _ _ _ Hscan Hi) as (c & Hc & Hp).
    apply Hns, (Hmem c); [by eapply list_elem_of_lookup_2|by rewrite Hp]. }
  split_and!.
  - intros k v (i & c' & Hc' & Hk & [Hv Hmgi]%last_mgi_Some)%build_mapping_Some;
      [|done|done].
    destruct (Forall2_lookup_r _ _ _ _ _ Hscan Hc') as (c & Hc & Hp).
    rewrite <-Hp in Hk, Hv.
    split_and!; [done|by exists i, c|].
    pose proof (proj1 (Forall_lookup _ _) Hcomp i c Hc) as (_ & _ & _ & _ & Hconn).
    by apply Hconn.
  - intros components' ns' Hsame Hns'. by apply build_mapping_rearranged.
  - intros Hone. unfold canonical_mapping, orthology_classes.
    apply build_mapping_rearranged; [exact Hdis|exact Hmem| |exact Hns].
    apply Forall2_same_length_lookup. split; [by eapply Forall2_length|].
    intros i c c' Hc Hc'.
    pose proof (Forall2_lookup_lr _ _ _ _ _ _ Hscan Hc Hc') as Hp.
    split; [done|].
    assert (c' ∈ components) as Hin by (by eapply list_elem_of_lookup_2).
    destruct (last_mgi c') as [r'|] eqn:Hlast'.
    + apply last_mgi_Some in Hlast' as [Hr' Hmgi'].
      destruct (last_mgi c) as [r|] eqn:Hlast.
      * apply last_mgi_Some in Hlast as [Hr Hmgi]. rewrite Hp in Hr.
        f_equal. by eapply Hone.
      * rewrite <-Hp in Hr'.
        by destruct (proj1 (last_mgi_None c) Hlast r' Hr').
    + destruct (last_mgi c) as [r|] eqn:Hlast; [|done].
      apply last_mgi_Some in Hlast as [Hr Hmgi]. rewrite Hp in Hr.
      by destruct (proj1 (last_mgi_None c') Hlast' r Hr).
Qed.

Lemma mapping_values_sound_witness :
  gi_namespace Trp53 = "MGI" ∧
  (∃ i c, connected_components (to_undirected two_mgi_orthology) !! i = Some c ∧
          TP53 ∈ c ∧ Trp53 ∈ c) ∧
  connected (to_undirected two_mgi_orthology) TP53 Trp53.
Proof.
  assert (Forall2 (≡ₚ) (connected_components (to_undirected two_mgi_orthology))
                  two_mgi_other_scan) as Hscan.
  { apply Forall2_cons. split; [|apply Forall2_nil_2].
    apply (bool_decide_unpack _). vm_compute. exact I. }
  apply (proj1 (mapping_values_sound two_mgi_orthology two_mgi_other_scan
                  (nodes (to_undirected two_mgi_orthology)) Hscan
                  (λ n, reflexivity _)) TP53 Trp53).
  reflexivity.
Defined.

(** C6. When a component holds several members of the reference namespace,
    the representative recorded for it is the one that the scan of the
    component meets last, and every member of the component is mapped to
    that one representative. *)
Theorem last_mgi_member_wins (orthology : Graph) (i : nat)
    (before after : list GeneIdentifier) (r : GeneIdentifier) :
  connected_components (to_undirected orthology) !! i =
    Some (before ++ r :: after) →
  gi_namespace r = "MGI" →
  (∀ m, m ∈ after → gi_namespace m ≠ "MGI") →
  index2mgi (orthology_classes orthology) !! i = Some r ∧
  ∀ m, m ∈ before ++ r :: after → canonical_mapping orthology !! m = Some r.
Proof.
  intros Hc Hr Hafter.
  pose proof (last_mgi_middle before r after Hr Hafter) as Hlast. split.
  - unfold orthology_classes. by rewrite index2mgi_spec, Hc.
  - intros m Hm. apply canonical_mapping_Some. by exists i, (before ++ r :: after).
Qed.

Lemma last_mgi_member_wins_witness :
  index2mgi (orthology_classes two_mgi_orthology) !! 0 = Some Trp53_ps ∧
  ∀ m, m ∈ [Trp53; TP53] ++ Trp53_ps :: [] →
       canonical_mapping two_mgi_orthology !! m = Some Trp53_ps.
Proof.
  apply (last_mgi_member_wins two_mgi_orthology 0 [Trp53; TP53] [] Trp53_ps).
  - reflexivity.
  - reflexivity.
  - intros m Hm. inversion Hm.
Defined.

(** C8. A component without a member of the reference namespace leaves no
    entry in the mapping: none of its members is a key. Nothing is raised
    for it, the mapping is built all the same; and the empty graph gives the
    empty mapping. *)
Theorem component_without_mgi_unmapped (orthology : Graph) :
  (∀ i c, connected_components (to_undirected orthology) !! i = Some c →
     (∀ m, m ∈ c → gi_namespace m ≠ "MGI") →
     ∀ m, m ∈ c → canonical_mapping orthology !! m = None) ∧
  canonical_mapping (mkGraph [] []) = ∅.
Proof.
  split; [|done].
  intros i c Hc Hno m Hm.
  destruct (canonical_mapping orthology !! m) as [r|] eqn:Hr; [|done].
  apply canonical_mapping_Some in Hr as (j & c' & Hc' & Hm' & Hr).
  destruct (orthology_components orthology) as (_ & _ & Hdis).
  assert (j = i) as -> by (by eapply Hdis).
  assert (c' = c) as -> by congruence.
  apply last_mgi_Some in Hr as [Hr Hns]. by destruct (Hno r).
Qed.

Lemma component_without_mgi_unmapped_witness :
  canonical_mapping foo_orthology !! FOO = None ∧
  canonical_mapping foo_orthology !! Foo = None.
Proof.
  assert (∀ m, m ∈ [Foo; FOO] → gi_namespace m ≠ "MGI") as Hno.
  { intros m Hm.
    apply elem_of_cons in Hm as [->|Hm]; [done|].
    apply list_elem_of_singleton in Hm as ->. done. }
  split;
    apply (proj1 (component_without_mgi_unmapped foo_orthology) 0 [Foo; FOO]
             eq_refl Hno); repeat constructor.
Defined.

(** C1, as the spec states it, fails: the edges TP53 - Trp53 and
    Trp53 - Tp53 give one component of three members, but the mapping is not
    the two entries of the spec, and the reference member Trp53 is a key. *)
Lemma tp53_example_two_entries_false :
  ¬ ((∃ c, connected_components (to_undirected tp53_orthology) = [c] ∧
           length c = 3) ∧
     canonical_mapping tp53_orthology = {[TP53 := Trp53; Tp53 := Trp53]} ∧
     canonical_mapping tp53_orthology !! Trp53 = None).
Proof. intros (_ & _ & Hkey). vm_compute in Hkey. discriminate. Qed.

(** C1, amended. For the edges TP53 - Trp53 and Trp53 - Tp53 there is one
    component, of the three identifiers, and the mapping sends each of the
    three to Trp53: the two of the spec, and Trp53 to itself. *)
Theorem tp53_example :
  (∃ c, connected_components (to_undirected tp53_orthology) = [c] ∧
        length c = 3 ∧ ∀ n, n ∈ c ↔ n = TP53 ∨ n = Trp53 ∨ n = Tp53) ∧
  canonical_mapping tp53_orthology =
    {[TP53 := Trp53; Tp53 := Trp53; Trp53 := Trp53]}.
Proof.
  split.
  - exists [TP53; Trp53; Tp53]. split_and!; [done|done|].
    intros n. rewrite !elem_of_cons, elem_of_nil. naive_solver.
  - vm_compute. reflexivity.
Qed.

(** C9. A node of the corpus that is not a key of the mapping is left as it
    is: the two cells run to the end, and the node is found under its name
    with the data it had. Cell 17 reads the "type" of every node, so every
    node is taken to have one. *)
Theorem unmapped_node_untouched (orthology : Graph) (g : Corpus) :
  (∀ n d, c_node g !! n = Some d → is_Some (d !! "type")) →
  ∃ g', apply_mapping orthology g = Some g' ∧
        ∀ n d, c_node g !! n = Some d →
               canonical_mapping orthology !! n = None →
               c_node g' !! n = Some d.
Proof.
  intros Htype. destruct (apply_mapping_is_Some orthology g Htype) as [g' Hg'].
  exists g'. split; [done|]. intros n d Hn Hnone.
  apply apply_mapping_spec in Hg' as (g1 & -> & _ & _ & Hg1).
  rewrite <-(relabel_None _ _ Hnone) at 1. apply relabel_nodes_alone.
  - rewrite Hg1, Hn. simpl. unfold mapped_data.
    destruct (Htype n d Hn) as [ty ->]. simpl.
    rewrite decide_False; [done|]. rewrite Hnone. by intros [_ [? ?]].
  - intros n' _. rewrite (relabel_None _ n Hnone). unfold relabel.
    destruct (canonical_mapping orthology !! n') as [r|] eqn:Hn'; [|done].
    intros ->. apply canonical_mapping_fixed in Hn'. congruence.
Qed.

Lemma unmapped_node_untouched_witness :
  ∃ g', apply_mapping tp53_orthology_data tp53_corpus = Some g' ∧
        ∀ n d, c_node tp53_corpus !! n = Some d →
               canonical_mapping tp53_orthology_data !! n = None →
               c_node g' !! n = Some d.
Proof.
  apply (unmapped_node_untouched tp53_orthology_data tp53_corpus).
  intros n d Hn. apply elem_of_map_to_list in Hn. vm_compute in Hn.
  apply elem_of_cons in Hn as [[= -> ->]|Hn]; [by eexists|].
  apply list_elem_of_singleton in Hn as [= -> ->]. by eexists.
Defined.

(** C3. When two distinct nodes of a corpus, and no other, take the same
    name [r], the relabelled corpus has the one node [r]: it holds the data
    of both, one dictionary updated with the other, so that every key of
    either is a key of the result, and the edges that touch it are those
    that touched either node, re-pointed. The nodes of the result are the
    new names of the nodes, nothing else. *)
Theorem relabel_collision_merges (f : GeneIdentifier → GeneIdentifier)
    (g : Corpus) (n1 n2 r : GeneIdentifier) (d1 d2 : Attrs) :
  corpus_wf g →
  n1 ≠ n2 →
  c_node g !! n1 = Some d1 →
  c_node g !! n2 = Some d2 →
  f n1 = r → f n2 = r →
  (∀ n, is_Some (c_node g !! n) → f n = r → n = n1 ∨ n = n2) →
  (∃ merged, c_node (relabel_nodes f g) !! r = Some merged ∧
             (merged = update d1 d2 ∨ merged = update d2 d1) ∧
             dom merged = dom d1 ∪ dom d2) ∧
  incident (relabel_nodes f g) r =
    set_map (relabel_edge f) (incident g n1 ∪ incident g n2) ∧
  (∀ n', is_Some (c_node (relabel_nodes f g) !! n') ↔
         ∃ n, is_Some (c_node g !! n) ∧ f n = n').
Proof.
  intros Hwf Hne H1 H2 Hf1 Hf2 Honly. split_and!.
  - assert (c_node (relabel_nodes f g) !! r = Some (update d1 d2) ∨
            c_node (relabel_nodes f g) !! r = Some (update d2 d1)) as [Hr|Hr].
    { simpl. apply (relabel_store_pair f _ n1 d1 n2 d2 r); try done.
      + apply NoDup_fst_map_to_list.
      + by apply elem_of_map_to_list.
      + by apply elem_of_map_to_list.
      + intros n d Hin%elem_of_map_to_list. apply Honly. by rewrite Hin. }
    + exists (update d1 d2). split_and!; [done|by left|].
      unfold update. rewrite dom_union_L. set_solver.
    + exists (update d2 d1). split_and!; [done|by right|].
      unfold update. by rewrite dom_union_L.
  - apply set_eq. intros e. unfold incident. simpl.
    rewrite elem_of_filter, !elem_of_map. split.
    + intros [Hr (e0 & -> & He0)]. exists e0. split; [done|].
      destruct (Hwf e0 He0) as [Hs Ht].
      rewrite elem_of_union, !elem_of_filter. simpl in Hr.
      destruct Hr as [Hr|Hr].
      * destruct (Honly _ Hs Hr) as [Heq|Heq]; [left|right]; auto.
      * destruct (Honly _ Ht Hr) as [Heq|Heq]; [left|right]; auto.
    + intros (e0 & -> & He0). rewrite elem_of_union, !elem_of_filter in He0.
      split.
      * simpl. destruct He0 as [[[<-|<-] _]|[[<-|<-] _]]; auto.
      * exists e0. split; [done|]. by destruct He0 as [[_ ?]|[_ ?]].
  - apply relabel_nodes_is_Some.
Qed.

Lemma relabel_collision_merges_witness :
  (∃ merged : Attrs,
     c_node (relabel_nodes (relabel (canonical_mapping tp53_orthology))
                           tp53_collision_corpus) !! Trp53 = Some merged ∧
     (merged = update {["type" := "Gene"; "species" := "human"]}
                      {["type" := "Gene"; "species" := "rat"]} ∨
      merged = update {["type" := "Gene"; "species" := "rat"]}
                      {["type" := "Gene"; "species" := "human"]}) ∧
     dom merged = dom ({["type" := "Gene"; "species" := "human"]} : Attrs) ∪
                  dom ({["type" := "Gene"; "species" := "rat"]} : Attrs)) ∧
  incident (relabel_nodes (relabel (canonical_mapping tp53_orthology))
                          tp53_collision_corpus) Trp53 =
    set_map (relabel_edge (relabel (canonical_mapping tp53_orthology)))
            (incident tp53_collision_corpus TP53 ∪
             incident tp53_collision_corpus Tp53) ∧
  (∀ n', is_Some (c_node (relabel_nodes
                            (relabel (canonical_mapping tp53_orthology))
                            tp53_collision_corpus) !! n') ↔
         ∃ n, is_Some (c_node tp53_collision_corpus !! n) ∧
              relabel (canonical_mapping tp53_orthology) n = n').
Proof.
  apply (relabel_collision_merges (relabel (canonical_mapping tp53_orthology))
           tp53_collision_corpus TP53 Tp53 Trp53).
  - intros e He. apply elem_of_elements in He. vm_compute in He.
    apply elem_of_cons in He as [->|He]; [split; by eexists|].
    apply list_elem_of_singleton in He as ->. split; by eexists.
  - discriminate.
  - reflexivity.
  - reflexivity.
  - reflexivity.
  - reflexivity.
  - intros n [d Hn] Hr. apply elem_of_map_to_list in Hn. vm_compute in Hn.
    apply elem_of_cons in Hn as [[= -> ->]|Hn]; [discriminate Hr|].
    apply elem_of_cons in Hn as [[= -> ->]|Hn]; [by right|].
    apply list_elem_of_singleton in Hn as [= -> ->]. by left.
Defined.

(** C2, as the spec states it, fails: a node whose "type" is not one of
    Gene, RNA and Protein does not keep its name when it is a key of the
    mapping. The microRNA MIR21 of the corpus is renamed to Mir21. *)
Lemma rename_needs_allowed_type_false :
  ¬ (∀ g', apply_mapping mir21_orthology mir21_corpus = Some g' →
       ∀ n d ty, c_node mir21_corpus !! n = Some d →
                 d !! "type" = Some ty →
                 ¬ (ty ∈ mapped_types ∧
                    is_Some (canonical_mapping mir21_orthology !! n)) →
                 is_Some (c_node g' !! n)).
Proof.
  intros Hclaim.
  assert (apply_mapping mir21_orthology mir21_corpus =
          Some mir21_corpus_relabeled) as Hrun by (vm_compute; reflexivity).
  destruct (Hclaim _ Hrun MIR21 {["type" := "miRNA"]} "miRNA") as [d Hd].
  - reflexivity.
  - reflexivity.
  - intros [Hty _]. unfold mapped_types in Hty.
    repeat (apply elem_of_cons in Hty as [Hty|Hty]; [discriminate Hty|]).
    by apply elem_of_nil in Hty.
  - vm_compute in Hd. discriminate Hd.
Qed.

(** C2, amended. The nodes of the relabelled corpus are the new names of the
    nodes of the corpus, and the new name of a node is its value in the
    mapping when it is a key, whatever its "type", and its own name
    otherwise. The "type" decides on the data only: for a node that is alone
    in taking its new name, a key of type Gene, RNA or Protein carries its
    data updated with the data of the orthology node, a key of another type
    carries its data as they were, and so does a node that is not a key,
    under its own name. *)
Theorem relabeling_step (orthology : Graph) (g g' : Corpus) :
  apply_mapping orthology g = Some g' →
  (∀ n', is_Some (c_node g' !! n') ↔
         ∃ n, is_Some (c_node g !! n) ∧
              relabel (canonical_mapping orthology) n = n') ∧
  (∀ n, relabel (canonical_mapping orthology) n =
        default n (canonical_mapping orthology !! n)) ∧
  (∀ n d,
     c_node g !! n = Some d →
     (∀ n0, is_Some (c_node g !! n0) →
            relabel (canonical_mapping orthology) n0 =
            relabel (canonical_mapping orthology) n → n0 = n) →
     ∃ ty, d !! "type" = Some ty ∧
       match canonical_mapping orthology !! n with
       | Some r =>
           if decide (ty ∈ mapped_types)
           then ∃ other, node_data (to_undirected orthology) r = Some other ∧
                         c_node g' !! r = Some (update d other)
           else c_node g' !! r = Some d
       | None => c_node g' !! n = Some d
       end).
Proof.
  intros (g1 & -> & _ & Hsome & Hg1)%apply_mapping_spec. split_and!.
  - intros n'. rewrite relabel_nodes_is_Some.
    split; intros (n & Hn & Hr); exists n; (split; [|done]);
      by apply (mapped_data_dom orthology g g1 n Hsome Hg1).
  - intros n. unfold relabel. by destruct (canonical_mapping orthology !! n).
  - intros n d Hn Halone.
    destruct (Hsome n d Hn) as [d1 Hd1].
    assert (c_node (relabel_nodes (relabel (canonical_mapping orthology)) g1)
              !! relabel (canonical_mapping orthology) n = Some d1) as Hnew.
    { apply relabel_nodes_alone.
      - by rewrite Hg1, Hn.
      - intros n0 Hn0. apply Halone.
        by apply (mapped_data_dom orthology g g1 n0 Hsome Hg1). }
    unfold mapped_data in Hd1.
    destruct (d !! "type") as [ty|]; [simpl in Hd1|done].
    exists ty. split; [done|].
    destruct (canonical_mapping orthology !! n) as [r|] eqn:Hr;
      [rewrite (relabel_Some _ _ _ Hr) in Hnew
      |rewrite (relabel_None _ _ Hr) in Hnew].
    + destruct (decide (ty ∈ mapped_types)) as [Hty|Hty].
      * rewrite decide_True in Hd1 by done. simpl in Hd1.
        destruct (node_data (to_undirected orthology) r) as [other|];
          [|done].
        simpl in Hd1. injection Hd1 as <-. by exists other.
      * rewrite decide_False in Hd1 by (by intros [? _]). congruence.
    + rewrite decide_False in Hd1 by (by intros [_ [? ?]]). congruence.
Qed.

Lemma relabeling_step_witness :
  ∃ ty, ({["type" := "Gene"]} : Attrs) !! "type" = Some ty ∧
    match canonical_mapping tp53_orthology_data !! TP53 with
    | Some r =>
        if decide (ty ∈ mapped_types)
        then ∃ other,
               node_data (to_undirected tp53_orthology_data) r = Some other ∧
               c_node tp53_corpus_relabeled !! r =
                 Some (update {["type" := "Gene"]} other)
        else c_node tp53_corpus_relabeled !! r = Some {["type" := "Gene"]}
    | None => c_node tp53_corpus_relabeled !! TP53 = Some {["type" := "Gene"]}
    end.
Proof.
  apply (proj2 (proj2 (relabeling_step tp53_orthology_data tp53_corpus
                         tp53_corpus_relabeled ltac:(vm_compute; reflexivity)))
           TP53).
  - reflexivity.
  - intros n0 [d Hn] Hr. apply elem_of_map_to_list in Hn. vm_compute in Hn.
    apply elem_of_cons in Hn as [[= -> ->]|Hn]; [discriminate Hr|].
    by apply list_elem_of_singleton in Hn as [= -> ->].
Defined.

(** * Further properties of the cells *)

(** ** Cell 11 on any sequence of components *)

Lemma member2index_last components m i :
  member2index (build_classes components) !! m = Some i ↔
  (∃ c, components !! i = Some c ∧ m ∈ c) ∧
  ∀ j c', components !! j = Some c' → m ∈ c' → j ≤ i.
Proof.
  revert i. induction components as [|c cs IH] using rev_ind; intros i.
  - split; [done|]. by intros [(c & ? & _) _].
  - rewrite build_classes_snoc. unfold scan_component.
    destruct (scan_members_spec (length cs) c
      (mkClasses (<[length cs:=c]> (index2component (build_classes cs)))
                 (member2index (build_classes cs)) (index2mgi (build_classes cs))))
      as (_ & -> & _). simpl.
    destruct (decide (m ∈ c)) as [Hm|Hm].
    + split.
      * intros [= <-]. split.
        -- exists c. by rewrite list_lookup_middle.
        -- intros j c' Hj%lookup_lt_Some _. rewrite length_app in Hj.
           simpl in Hj. lia.
      * intros [(c0 & Hi%lookup_lt_Some & _) Hmax].
        rewrite length_app in Hi. simpl in Hi.
        pose proof (Hmax (length cs) c (list_lookup_middle _ _ _ _ eq_refl) Hm).
        f_equal. lia.
    + rewrite IH. split.
      * intros [(c0 & Hi & Hm0) Hmax]. split.
        -- exists c0. split; [|done]. by apply lookup_app_l_Some.
        -- intros j c' [Hj|[_ Hj]]%lookup_app_Some Hm'; [by eapply Hmax|].
           by apply list_lookup_singleton_Some in Hj as [_ <-].
      * intros [(c0 & Hi & Hm0) Hmax].
        apply lookup_app_Some in Hi as [Hi|[_ Hi]].
        -- split; [by exists c0|]. intros j c' Hj Hm'.
           eapply Hmax; [|done]. by apply lookup_app_l_Some.
        -- by apply list_lookup_singleton_Some in Hi as [_ <-].
Qed.

(** X1. Whatever the sequence of components, the three tables of cell 11
    agree: [index2component] holds the components under their indices, the
    index of a member is the index of a component that holds it, and the
    representative of an index is a member of that component, in the
    namespace MGI, with an index of its own. *)
Theorem tables_agree (components : list (list GeneIdentifier)) :
  (∀ i, index2component (build_classes components) !! i = components !! i) ∧
  (∀ m i, member2index (build_classes components) !! m = Some i →
          ∃ c, index2component (build_classes components) !! i = Some c ∧
               m ∈ c) ∧
  (∀ i r, index2mgi (build_classes components) !! i = Some r →
          gi_namespace r = "MGI" ∧
          is_Some (member2index (build_classes components) !! r) ∧
          ∃ c, index2component (build_classes components) !! i = Some c ∧
               r ∈ c).
Proof.
  split_and!.
  - apply index2component_spec.
  - intros m i (c & Hc & Hm)%member2index_Some. exists c.
    by rewrite index2component_spec.
  - intros i r. rewrite index2mgi_spec.
    destruct (components !! i) as [c|] eqn:Hc; [simpl|done].
    intros [Hr Hns]%last_mgi_Some. split_and!; [done| |].
    + eapply member2index_is_Some; [|done]. by eapply list_elem_of_lookup_2.
    + exists c. by rewrite index2component_spec.
Qed.

Lemma tables_agree_witness :
  gi_namespace Trp53 = "MGI" ∧
  is_Some (member2index (build_classes overlapping_components) !! Trp53) ∧
  ∃ c, index2component (build_classes overlapping_components) !! 1 = Some c ∧
       Trp53 ∈ c.
Proof.
  apply (proj2 (proj2 (tables_agree overlapping_components)) 1 Trp53).
  reflexivity.
Defined.

(** X2. When an identifier is a member of several components, the index
    that [member2index] keeps for it is that of the last of them: every
    assignment of the scan overwrites the one before. *)
Theorem member2index_last_component (components : list (list GeneIdentifier))
    (m : GeneIdentifier) (i : nat) (c : list GeneIdentifier) :
  components !! i = Some c → m ∈ c →
  (∀ j c', components !! j = Some c' → m ∈ c' → j ≤ i) →
  member2index (build_classes components) !! m = Some i.
Proof.
  intros Hc Hm Hlast. apply member2index_last. split; [by exists c|done].
Qed.

Lemma member2index_last_component_witness :
  member2index (build_classes overlapping_components) !! Trp53 = Some 1.
Proof.
  apply (member2index_last_component overlapping_components Trp53 1 [Trp53; Tp53]).
  - reflexivity.
  - repeat constructor.
  - intros j c' Hj%lookup_lt_Some _. simpl in Hj. lia.
Defined.

(** ** Cells 11 and 12 on an orthology graph *)

Lemma canonical_mapping_component G i c k :
  connected_components (to_undirected G) !! i = Some c → k ∈ c →
  canonical_mapping G !! k = last_mgi c.
Proof.
  intros Hc Hk. rewrite canonical_mapping_lookup.
  rewrite decide_True by (by eapply component_nodes).
  rewrite (component_member2index G i c k Hc Hk). simpl.
  unfold orthology_classes. by rewrite index2mgi_spec, Hc.
Qed.

Lemma node_component G n :
  n ∈ nodes (to_undirected G) →
  ∃ i c, connected_components (to_undirected G) !! i = Some c ∧ n ∈ c ∧
         is_component (to_undirected G) c.
Proof.
  intros Hn. destruct (orthology_components G) as (Hcover & Hcomp & _).
  apply Hcover in Hn as (c & [i Hi]%list_elem_of_lookup_1 & Hn).
  exists i, c. split_and!; [done|done|].
  by apply (proj1 (Forall_lookup _ _) Hcomp i c).
Qed.

(** X3. A node of the orthology graph is a key of the mapping exactly when a
    path of the undirected graph leads from it to an identifier of the
    namespace MGI; an identifier that is not a node is never a key. *)
Theorem mapping_keys (orthology : Graph) (n : GeneIdentifier) :
  is_Some (canonical_mapping orthology !! n) ↔
  n ∈ nodes (to_undirected orthology) ∧
  ∃ r, gi_namespace r = "MGI" ∧ connected (to_undirected orthology) n r.
Proof.
  split.
  - intros [r Hr].
    pose proof Hr as (i & c & Hc & Hn & [Hrc Hns]%last_mgi_Some)%canonical_mapping_Some.
    split; [by eapply component_nodes|]. exists r. split; [done|].
    destruct (orthology_components orthology) as (_ & Hcomp & _).
    pose proof (proj1 (Forall_lookup _ _) Hcomp i c Hc) as (_ & _ & _ & _ & Hconn).
    by apply Hconn.
  - intros (Hn & r & Hns & Hconn).
    apply node_component in Hn as (i & c & Hc & Hn & _ & _ & _ & Hclosed & _).
    rewrite (canonical_mapping_component orthology i c n Hc Hn).
    assert (r ∈ c) as Hr by (by eapply closed_connected).
    destruct (last_mgi c) as [r'|] eqn:Hlast; [done|].
    by destruct (proj1 (last_mgi_None c) Hlast r Hr).
Qed.

Lemma mapping_keys_witness :
  Tp53 ∈ nodes (to_undirected tp53_orthology) ∧
  ∃ r, gi_namespace r = "MGI" ∧ connected (to_undirected tp53_orthology) Tp53 r.
Proof.
  apply (proj1 (mapping_keys tp53_orthology Tp53)). by eexists.
Defined.

(** X4. Two nodes joined by a path of the undirected orthology graph have
    the same entry in the mapping, or none, both of them; and two keys with
    the same value are joined by a path. Orthologous identifiers collapse
    to one name, and identifiers of different components never do. *)
Theorem connected_nodes_same_image (orthology : Graph) (n m : GeneIdentifier) :
  (n ∈ nodes (to_undirected orthology) →
   connected (to_undirected orthology) n m →
   canonical_mapping orthology !! n = canonical_mapping orthology !! m) ∧
  (∀ r, canonical_mapping orthology !! n = Some r →
        canonical_mapping orthology !! m = Some r →
        connected (to_undirected orthology) n m).
Proof.
  split.
  - intros Hn Hconn.
    apply node_component in Hn as (i & c & Hc & Hn & _ & _ & _ & Hclosed & _).
    assert (m ∈ c) as Hm by (by eapply closed_connected).
    by rewrite (canonical_mapping_component orthology i c n Hc Hn),
               (canonical_mapping_component orthology i c m Hc Hm).
  - intros r (i & c & Hc & Hn & [Hr _]%last_mgi_Some)%canonical_mapping_Some
             (j & c' & Hc' & Hm & [Hr' _]%last_mgi_Some)%canonical_mapping_Some.
    destruct (orthology_components orthology) as (_ & Hcomp & Hdis).
    assert (i = j) as <- by (by eapply Hdis).
    assert (c' = c) as -> by congruence.
    pose proof (proj1 (Forall_lookup _ _) Hcomp i c Hc) as (_ & _ & _ & _ & Hconn).
    by apply Hconn.
Qed.

Lemma connected_nodes_same_image_witness :
  canonical_mapping tp53_orthology !! TP53 =
  canonical_mapping tp53_orthology !! Tp53.
Proof.
  apply (proj1 (connected_nodes_same_image tp53_orthology TP53 Tp53)).
  - vm_compute. repeat constructor.
  - apply (rtc_l _ _ Trp53); [|apply rtc_once];
      unfold adjacent; apply elem_of_neighbors; vm_compute; repeat constructor.
Defined.

(** X5. Cell 12 on any tables and any sequence of nodes, with repetitions or
    not: an identifier is a key exactly when the loop went through it, it
    has an index and the index has a representative, which is then its
    value. The two [continue] leave no entry and raise nothing. *)
Theorem mapping_entry (st : Classes) (ns : list GeneIdentifier)
    (n r : GeneIdentifier) :
  build_mapping st ns !! n = Some r ↔
  n ∈ ns ∧ ∃ index, member2index st !! n = Some index ∧
                    index2mgi st !! index = Some r.
Proof.
  rewrite build_mapping_spec. destruct (decide (n ∈ ns)) as [Hn|Hn].
  - destruct (member2index st !! n) as [index|]; simpl.
    + split; [by eauto|]. by intros (_ & index' & [= <-] & ?).
    + split; [done|]. by intros (_ & index' & ? & _).
  - split; [done|]. by intros [? _].
Qed.

Lemma mapping_entry_witness :
  TP53 ∈ [TP53; TP53; Tp53] ∧
  ∃ index,
    member2index (build_classes overlapping_components) !! TP53 = Some index ∧
    index2mgi (build_classes overlapping_components) !! index = Some Trp53.
Proof.
  apply (proj1 (mapping_entry (build_classes overlapping_components)
                  [TP53; TP53; Tp53] TP53 Trp53)).
  reflexivity.
Defined.

(** ** Cell 17 on any mapping *)

Lemma mapped_data_type orthology_undirected mapping n d :
  is_Some (mapped_data orthology_undirected mapping n d) →
  is_Some (d !! "type").
Proof.
  unfold mapped_data. destruct (d !! "type") as [ty|]; [by eexists|].
  simpl. by intros [? ?].
Qed.

Lemma mapped_data_grows orthology_undirected mapping n d d1 :
  mapped_data orthology_undirected mapping n d = Some d1 →
  dom d ⊆ dom d1 ∧
  (mapping !! n = None → d1 = d) ∧
  (∀ ty, d !! "type" = Some ty → ty ∉ mapped_types → d1 = d).
Proof.
  unfold mapped_data. destruct (d !! "type") as [ty|]; [simpl|done].
  case_decide as Hcond.
  - destruct Hcond as [Hty [target Htarget]]. rewrite Htarget. simpl.
    destruct (node_data orthology_undirected target) as [other|]; [simpl|done].
    intros [= <-]. unfold update. split_and!.
    + rewrite dom_union_L. set_solver.
    + done.
    + by intros ty' [= <-] ?.
  - by intros [= <-].
Qed.

Lemma mapped_data_again orthology_undirected mapping n d d1 :
  mapped_data orthology_undirected mapping n d = Some d1 →
  mapped_data orthology_undirected mapping n d1 = Some d1.
Proof.
  intros Hd1. pose proof Hd1 as Hd1'. unfold mapped_data in Hd1.
  destruct (d !! "type") as [ty|] eqn:Hty; [simpl in Hd1|done].
  case_decide as Hcond; [|by injection Hd1 as <-].
  destruct Hcond as [_ [target Htarget]]. rewrite Htarget in Hd1.
  simpl in Hd1.
  destruct (node_data orthology_undirected target) as [other|] eqn:Hother;
    [simpl in Hd1|done].
  injection Hd1 as <-. unfold mapped_data.
  assert (is_Some (update d other !! "type")) as [ty' ->].
  { unfold update. rewrite lookup_union.
    rewrite Hty. by destruct (other !! "type"). }
  simpl. case_decide; [|done].
  rewrite Htarget. simpl. rewrite Hother. simpl. f_equal.
  unfold update. by rewrite (assoc_L (∪)), (idemp_L (∪)).
Qed.

(** X6. Cell 17 touches neither the edges nor the set of nodes. A node
    keeps every key of its data; its data are the same when it is not a key
    of the mapping, and when its "type" is not Gene, RNA or Protein. *)
Theorem map_node_data_frame (orthology_undirected : Graph)
    (mapping : gmap GeneIdentifier GeneIdentifier) (g g1 : Corpus) :
  map_node_data orthology_undirected mapping g = Some g1 →
  c_edge g1 = c_edge g ∧
  dom (c_node g1) = dom (c_node g) ∧
  ∀ n d, c_node g !! n = Some d →
    ∃ d1, c_node g1 !! n = Some d1 ∧ dom d ⊆ dom d1 ∧
          (mapping !! n = None → d1 = d) ∧
          (∀ ty, d !! "type" = Some ty → ty ∉ mapped_types → d1 = d).
Proof.
  intros Hrun.
  pose proof (map_node_data_spec orthology_undirected mapping g) as Hspec.
  rewrite Hrun in Hspec. destruct Hspec as (Hedge & Hsome & Hnode).
  split_and!; [done| |].
  - apply set_eq. intros n. rewrite !elem_of_dom, Hnode.
    destruct (c_node g !! n) as [d|] eqn:Hn; simpl.
    + split; [done|]. intros _. by apply Hsome.
    + done.
  - intros n d Hn. destruct (Hsome n d Hn) as [d1 Hd1]. exists d1.
    split; [by rewrite Hnode, Hn|]. by eapply mapped_data_grows.
Qed.

Lemma map_node_data_frame_witness :
  c_edge tp53_corpus_updated = c_edge tp53_corpus ∧
  dom (c_node tp53_corpus_updated) = dom (c_node tp53_corpus) ∧
  ∀ n d, c_node tp53_corpus !! n = Some d →
    ∃ d1, c_node tp53_corpus_updated !! n = Some d1 ∧ dom d ⊆ dom d1 ∧
          (canonical_mapping tp53_orthology_data !! n = None → d1 = d) ∧
          (∀ ty, d !! "type" = Some ty → ty ∉ mapped_types → d1 = d).
Proof.
  apply (map_node_data_frame (to_undirected tp53_orthology_data)
           (canonical_mapping tp53_orthology_data)
           tp53_corpus tp53_corpus_updated).
  vm_compute. reflexivity.
Defined.

(** X7. Running cell 17 a second time changes nothing: the data of the
    orthology node are already in place. *)
Theorem map_node_data_twice (orthology_undirected : Graph)
    (mapping : gmap GeneIdentifier GeneIdentifier) (g g1 : Corpus) :
  map_node_data orthology_undirected mapping g = Some g1 →
  map_node_data orthology_undirected mapping g1 = Some g1.
Proof.
  intros Hrun.
  pose proof (map_node_data_spec orthology_undirected mapping g) as Hspec.
  rewrite Hrun in Hspec. destruct Hspec as (_ & Hsome & Hnode).
  assert (∀ n d1, c_node g1 !! n = Some d1 →
            mapped_data orthology_undirected mapping n d1 = Some d1) as Hfix.
  { intros n d1. rewrite Hnode.
    destruct (c_node g !! n) as [d|]; [simpl|done]. apply mapped_data_again. }
  pose proof (map_node_data_spec orthology_undirected mapping g1) as Hspec.
  destruct (map_node_data orthology_undirected mapping g1) as [g2|].
  - destruct Hspec as (Hedge & _ & Hnode2). f_equal.
    destruct g1 as [node1 edge1], g2 as [node2 edge2]. simpl in *. f_equal.
    + apply map_eq. intros n. rewrite Hnode2.
      destruct (node1 !! n) as [d1|] eqn:Hn; [simpl|done]. by apply Hfix.
    + done.
  - destruct Hspec as (n & d1 & Hn & Hnone). rewrite (Hfix n d1 Hn) in Hnone.
    done.
Qed.

Lemma map_node_data_twice_witness :
  map_node_data (to_undirected tp53_orthology_data)
    (canonical_mapping tp53_orthology_data) tp53_corpus_updated =
  Some tp53_corpus_updated.
Proof.
  apply (map_node_data_twice (to_undirected tp53_orthology_data)
           (canonical_mapping tp53_orthology_data) tp53_corpus).
  vm_compute. reflexivity.
Defined.

(** ** Cells 17 and 18 on the mapping of an orthology graph *)

(** X8. With the mapping of an orthology graph the two cells fail in one
    case only, the [KeyError] of a node of the corpus without "type": the
    data of a representative are always found in the orthology graph. *)
Theorem apply_mapping_fails_without_type (orthology : Graph) (g : Corpus) :
  apply_mapping orthology g = None ↔
  ∃ n d, c_node g !! n = Some d ∧ d !! "type" = None.
Proof.
  split.
  - unfold apply_mapping.
    pose proof (map_node_data_spec (to_undirected orthology)
                  (canonical_mapping orthology) g) as Hspec.
    destruct (map_node_data _ _ g) as [g1|]; [done|]. intros _.
    destruct Hspec as (n & d & Hn & Hnone). exists n, d. split; [done|].
    destruct (d !! "type") as [ty|] eqn:Hty; [|done].
    destruct (mapped_data_is_Some orthology n d) as [? ?]; [by eexists|].
    congruence.
  - intros (n & d & Hn & Hty).
    destruct (apply_mapping orthology g) as [g'|] eqn:Hrun; [|done].
    apply apply_mapping_spec in Hrun as (g1 & _ & _ & Hsome & _).
    apply Hsome, mapped_data_type in Hn as [ty Hty']. congruence.
Qed.

Lemma apply_mapping_fails_without_type_witness :
  apply_mapping tp53_orthology (mkCorpus {[TP53 := ∅]} ∅) = None.
Proof.
  apply (proj2 (apply_mapping_fails_without_type tp53_orthology
                  (mkCorpus {[TP53 := ∅]} ∅))).
  exists TP53, ∅. split; reflexivity.
Defined.

(** X9. After the two cells no node of the corpus is left to be renamed:
    each node of the result is either no key of the mapping or its own
    representative, in the namespace MGI. *)
Theorem relabeled_nodes_canonical (orthology : Graph) (g g' : Corpus)
    (n' : GeneIdentifier) :
  apply_mapping orthology g = Some g' →
  is_Some (c_node g' !! n') →
  canonical_mapping orthology !! n' = None ∨
  (canonical_mapping orthology !! n' = Some n' ∧ gi_namespace n' = "MGI").
Proof.
  intros (g1 & -> & _ & _ & _)%apply_mapping_spec
         (n & _ & <-)%relabel_nodes_is_Some.
  unfold relabel.
  destruct (canonical_mapping orthology !! n) as [r|] eqn:Hn; [right|by left].
  split; [by eapply canonical_mapping_fixed|].
  by apply canonical_mapping_Some in Hn as (i & c & _ & _ & [_ ?]%last_mgi_Some).
Qed.

Lemma relabeled_nodes_canonical_witness :
  canonical_mapping tp53_orthology_data !! Trp53 = None ∨
  (canonical_mapping tp53_orthology_data !! Trp53 = Some Trp53 ∧
   gi_namespace Trp53 = "MGI").
Proof.
  apply (relabeled_nodes_canonical tp53_orthology_data tp53_corpus
           tp53_corpus_relabeled Trp53).
  - vm_compute. reflexivity.
  - by eexists.
Defined.

(** ** Cells 15 and 19: the counter *)

Lemma count_gene_namespace_None l : foldl count_gene_namespace None l = None.
Proof. by induction l. Qed.

Lemma count_gene_namespace_fold l counter0 :
  (∀ ns v, counter0 !! ns = Some v → 0 < v) →
  match foldl count_gene_namespace (Some counter0) l with
  | Some counter =>
      (∀ ns v, counter !! ns = Some v → 0 < v) ∧
      ∀ ns, default 0 (counter !! ns) =
            default 0 (counter0 !! ns) +
            length (filter (λ nd : GeneIdentifier * Attrs,
                              nd.2 !! "type" = Some "Gene" ∧
                              gi_namespace nd.1 = ns) l)
  | None => ∃ nd, nd ∈ l ∧ nd.2 !! "type" = None
  end.
Proof.
  revert counter0.
  induction l as [|[n d] l IH]; intros counter0 Hpos; cbn [foldl].
  - split; [done|]. intros ns. simpl. lia.
  - unfold count_gene_namespace at 2. simpl.
    destruct (d !! "type") as [ty|] eqn:Hty; simpl.
    + destruct (decide (ty = "Gene")) as [->|Hne].
      * specialize (IH (<[gi_namespace n :=
                            S (default 0 (counter0 !! gi_namespace n))]> counter0)).
        destruct (foldl _ _ l) as [counter|].
        -- destruct IH as [IH1 IH2].
           { intros ns v. destruct (decide (gi_namespace n = ns)) as [<-|?].
             - rewrite lookup_insert_eq. intros [= <-]. lia.
             - rewrite lookup_insert_ne by done. apply Hpos. }
           split; [done|]. intros ns. rewrite IH2, filter_cons. simpl.
           destruct (decide (gi_namespace n = ns)) as [<-|?].
           ++ rewrite lookup_insert_eq, decide_True by done. simpl. lia.
           ++ rewrite lookup_insert_ne by done.
              rewrite decide_False by (by intros [_ ?]). done.
        -- destruct IH as (nd & Hin & Hnone).
           { intros ns v. destruct (decide (gi_namespace n = ns)) as [<-|?].
             - rewrite lookup_insert_eq. intros [= <-]. lia.
             - rewrite lookup_insert_ne by done. apply Hpos. }
           exists nd. split; [by right|done].
      * specialize (IH counter0 Hpos).
        destruct (foldl _ _ l) as [counter|].
        -- destruct IH as [IH1 IH2]. split; [done|]. intros ns.
           rewrite IH2, filter_cons. simpl.
           rewrite decide_False; [done|]. rewrite Hty. by intros [[= ?] _].
        -- destruct IH as (nd & Hin & Hnone). exists nd. split; [by right|done].
    + rewrite count_gene_namespace_None. exists (n, d). split; [left|done].
Qed.

Lemma size_genes_of ns g :
  size (genes_of ns g) =
  length (filter (λ nd : GeneIdentifier * Attrs,
                    nd.2 !! "type" = Some "Gene" ∧ gi_namespace nd.1 = ns)
                 (map_to_list (c_node g))).
Proof.
  unfold genes_of. rewrite map_filter_alt. apply map_size_list_to_map.
  eapply sublist_NoDup; [apply (NoDup_fst_map_to_list (c_node g))|].
  apply fmap_sublist, sublist_filter.
Qed.

(** X10. When the counter of cells 15 and 19 is built, the count of a
    namespace is the number of nodes of type Gene of the corpus whose name
    is in that namespace, and a namespace without such a node has no entry,
    not the count 0. *)
Theorem namespace_counter_counts (g : Corpus) (counter : gmap string nat)
    (ns : string) :
  namespace_counter g = Some counter →
  counter !! ns =
  if decide (size (genes_of ns g) = 0) then None
  else Some (size (genes_of ns g)).
Proof.
  unfold namespace_counter. intros Hrun.
  pose proof (count_gene_namespace_fold (map_to_list (c_node g)) ∅) as Hfold.
  rewrite Hrun in Hfold. destruct Hfold as [Hpos Hcount]; [done|].
  specialize (Hcount ns). rewrite lookup_empty in Hcount. simpl in Hcount.
  rewrite size_genes_of, <-Hcount.
  destruct (counter !! ns) as [v|] eqn:Hv; simpl.
  - apply Hpos in Hv. by rewrite decide_False by lia.
  - done.
Qed.

Lemma namespace_counter_counts_witness :
  ({["HGNC" := 1]} : gmap string nat) !! "HGNC" =
  if decide (size (genes_of "HGNC" tp53_corpus) = 0) then None
  else Some (size (genes_of "HGNC" tp53_corpus)).
Proof.
  apply (namespace_counter_counts tp53_corpus {["HGNC" := 1]} "HGNC").
  vm_compute. reflexivity.
Defined.

(** X11. The counter of cells 15 and 19 is built exactly when every node of
    the corpus has a "type": one node without it, of whatever kind, is a
    [KeyError]. *)
Theorem namespace_counter_fails_without_type (g : Corpus) :
  namespace_counter g = None ↔
  ∃ n d, c_node g !! n = Some d ∧ d !! "type" = None.
Proof.
  unfold namespace_counter. split.
  - intros Hrun.
    pose proof (count_gene_namespace_fold (map_to_list (c_node g)) ∅) as Hfold.
    rewrite Hrun in Hfold. destruct Hfold as ([n d] & Hin & Hnone); [done|].
    exists n, d. split; [by apply elem_of_map_to_list|done].
  - intros (n & d & Hn%elem_of_map_to_list & Hty).
    apply list_elem_of_split in Hn as (l1 & l2 & ->).
    rewrite foldl_app. cbn [foldl].
    destruct (foldl count_gene_namespace (Some ∅) l1) as [counter|]; simpl.
    + unfold count_gene_namespace at 1. simpl. rewrite Hty. simpl.
      apply count_gene_namespace_None.
    + apply count_gene_namespace_None.
Qed.

Lemma namespace_counter_fails_without_type_witness :
  namespace_counter (mkCorpus {[TP53 := ∅]} ∅) = None.
Proof.
  apply (proj2 (namespace_counter_fails_without_type (mkCorpus {[TP53 := ∅]} ∅))).
  exists TP53, ∅. split; reflexivity.
Defined.

(** ** Cell 19 after cells 17 and 18 *)

Lemma relabeled_node_origin orthology g g' n' :
  apply_mapping orthology g = Some g' →
  is_Some (c_node g' !! n') →
  (canonical_mapping orthology !! n' = None ∧ is_Some (c_node g !! n')) ∨
  (canonical_mapping orthology !! n' = Some n' ∧ gi_namespace n' = "MGI").
Proof.
  intros (g1 & -> & _ & Hsome & Hg1)%apply_mapping_spec
         (n & Hn & <-)%relabel_nodes_is_Some.
  apply (mapped_data_dom orthology g g1 n Hsome Hg1) in Hn.
  destruct (canonical_mapping orthology !! n) as [r|] eqn:Hr.
  - right. rewrite (relabel_Some _ _ _ Hr).
    split; [by eapply canonical_mapping_fixed|].
    by apply canonical_mapping_Some in Hr as (i & c & _ & _ & [_ ?]%last_mgi_Some).
  - left. by rewrite (relabel_None _ _ Hr).
Qed.

(** X12. In the counter of cell 19, taken after the two cells, every node
    of type Gene is counted under its namespace, and every such node that
    has an entry in the mapping is counted under MGI: a node counted under
    another namespace is a node that the corpus had before and that has no
    entry in the mapping. So a namespace other than MGI is in the counter
    only for such a node. *)
Theorem after_counter_namespaces (orthology : Graph) (g g' : Corpus)
    (after_counter : gmap string nat) :
  apply_mapping orthology g = Some g' →
  namespace_counter g' = Some after_counter →
  (∀ n' d', c_node g' !! n' = Some d' → d' !! "type" = Some "Gene" →
     is_Some (after_counter !! gi_namespace n') ∧
     (is_Some (canonical_mapping orthology !! n') →
      gi_namespace n' = "MGI") ∧
     (gi_namespace n' ≠ "MGI" →
      is_Some (c_node g !! n') ∧ canonical_mapping orthology !! n' = None)) ∧
  (∀ ns, is_Some (after_counter !! ns) →
     ns = "MGI" ∨
     ∃ n, gi_namespace n = ns ∧ is_Some (c_node g !! n) ∧
          canonical_mapping orthology !! n = None).
Proof.
  intros Hrun Hcount.
  pose proof (count_gene_namespace_fold (map_to_list (c_node g')) ∅) as Hfold.
  unfold namespace_counter in Hcount. rewrite Hcount in Hfold.
  destruct Hfold as [Hpos Hlen]; [done|]. split.
  - intros n' d' Hn' Hty. split_and!.
    + specialize (Hlen (gi_namespace n')). rewrite lookup_empty in Hlen.
      simpl in Hlen.
      assert ((n', d') ∈ filter (λ nd : GeneIdentifier * Attrs,
                                   nd.2 !! "type" = Some "Gene" ∧
                                   gi_namespace nd.1 = gi_namespace n')
                                (map_to_list (c_node g'))) as Hin.
      { apply list_elem_of_filter. split; [done|].
        by apply elem_of_map_to_list. }
      destruct (after_counter !! gi_namespace n') as [v|]; [done|].
      simpl in Hlen. destruct (filter _ _); [by apply elem_of_nil in Hin|].
      simpl in Hlen. lia.
    + intros [r Hr].
      destruct (relabeled_node_origin orthology g g' n' Hrun)
        as [[Hnone _]|[_ Hmgi]]; [by eexists|congruence|done].
    + intros Hns.
      destruct (relabeled_node_origin orthology g g' n' Hrun)
        as [[Hnone Hg]|[_ Hmgi]]; [by eexists|done|done].
  - intros ns [v Hv].
    specialize (Hlen ns). rewrite Hv, lookup_empty in Hlen. simpl in Hlen.
    apply Hpos in Hv.
    destruct (filter _ (map_to_list (c_node g'))) as [|[n' d'] l] eqn:Hfilter;
      [simpl in Hlen; lia|].
    assert ((n', d') ∈ filter (λ nd : GeneIdentifier * Attrs,
                                 nd.2 !! "type" = Some "Gene" ∧
                                 gi_namespace nd.1 = ns)
                              (map_to_list (c_node g'))) as Hin
      by (rewrite Hfilter; left).
    apply list_elem_of_filter in Hin as [[_ Hns] Hin%elem_of_map_to_list].
    simpl in Hns.
    destruct (relabeled_node_origin orthology g g' n' Hrun)
      as [[Hnone Hg]|[_ Hmgi]].
    + by eexists.
    + right. by exists n'.
    + left. congruence.
Qed.

Lemma after_counter_namespaces_witness :
  is_Some (({["MGI" := 1]} : gmap string nat) !! gi_namespace Trp53) ∧
  (is_Some (canonical_mapping tp53_orthology_data !! Trp53) →
   gi_namespace Trp53 = "MGI") ∧
  (gi_namespace Trp53 ≠ "MGI" →
   is_Some (c_node tp53_corpus !! Trp53) ∧
   canonical_mapping tp53_orthology_data !! Trp53 = None).
Proof.
  apply (proj1 (after_counter_namespaces tp53_orthology_data tp53_corpus
                  tp53_corpus_relabeled {["MGI" := 1]}
                  ltac:(vm_compute; reflexivity)
                  ltac:(vm_compute; reflexivity))
           Trp53 {["type" := "Gene"; "namespace" := "MGI"; "name" := "Trp53"]}).
  - reflexivity.
  - reflexivity.
Defined.
